(** * Watson: the dumper, the stack machine and the native-value adapter

    A shallow embedding of [pkg/dumper/dumper.go] and of the adapter
    ([FromValue], [ToValue], [reflectValueToValue]), together with a model
    of the stack machine whose tests are in [pkg/vm/execution_test.go]. *)

From Stdlib Require Import ZArith List Lia Bool Permutation.
From Stdlib.Strings Require Import Byte.
Import ListNotations.
Open Scope Z_scope.
Set Warnings "-register-all".

(** ** Machine integers

    Go's [int64], [uint64] and [float64] are 64-bit words.  They are kept
    as [Z]; the wrap-around of each conversion is written out.  A
    [float64] is kept as its IEEE-754 bit pattern (what [math.Float64bits]
    returns), so that two floats are equal exactly when their bits are. *)

Definition int64 := Z.
Definition uint64 := Z.
Definition float64 := Z.

Definition is_uint64 (n : Z) : bool := (0 <=? n) && (n <? 2 ^ 64).
Definition is_int64 (n : Z) : bool := (- 2 ^ 63 <=? n) && (n <? 2 ^ 63).

(** [uint64(i)] for [i : int64]: the two's-complement pattern. *)
Definition uint64_of_int64 (i : int64) : uint64 := i mod 2 ^ 64.

(** [int64(u)] for [u : uint64], and the wrap-around of [int64] arithmetic. *)
Definition int64_of_Z (z : Z) : int64 := (z + 2 ^ 63) mod 2 ^ 64 - 2 ^ 63.

(** [uint64(c)] for a byte [c]. *)
Definition uint64_of_byte (c : byte) : uint64 := Z.of_N (Byte.to_N c).

(** [byte(i)]: the low eight bits. *)
Definition byte_of_Z (z : Z) : byte :=
  match Byte.of_N (Z.to_N (z mod 256)) with
  | Some b => b
  | None => x00
  end.

(** [bits.LeadingZeros64]: the number of zero bits above the highest set
    bit of a 64-bit word, 64 for zero.  [leading_zeros w n] scans the bits
    [w-1], [w-2], ... of [n]. *)
Fixpoint leading_zeros (w : nat) (n : Z) : Z :=
  match w with
  | O => 0
  | S w' => if Z.testbit n (Z.of_nat w') then 0 else 1 + leading_zeros w' n
  end.

Definition LeadingZeros64 (n : uint64) : Z := leading_zeros 64 n.

(** ** Floats as bit patterns: [math.IsNaN], [math.IsInf], [math.Float64bits] *)

Definition f_exponent (x : float64) : Z := Z.land (Z.shiftr x 52) 2047.
Definition f_fraction (x : float64) : Z := Z.land x (2 ^ 52 - 1).
Definition f_sign (x : float64) : bool := Z.testbit x 63.

Definition IsNaN (x : float64) : bool :=
  (f_exponent x =? 2047) && negb (f_fraction x =? 0).

(** [math.IsInf(x, sign)]: [sign > 0] asks for +Inf, [sign < 0] for -Inf,
    [sign = 0] for either. *)
Definition IsInf (x : float64) (sign : Z) : bool :=
  (f_exponent x =? 2047) && (f_fraction x =? 0) &&
  (((0 <=? sign) && negb (f_sign x)) || ((sign <=? 0) && f_sign x)).

Definition Float64bits (x : float64) : uint64 := x.

(** [math.Inf(1)], [math.Inf(-1)] and [math.NaN()] (Go's [uvinf], [uvneginf]
    and [uvnan]). *)
Definition pos_inf : float64 := 0x7FF0000000000000.
Definition neg_inf : float64 := 0xFFF0000000000000.
Definition go_NaN : float64 := 0x7FF8000000000001.

(** ** Ops and values *)

(** Modelled from the spec: the declaration of [Op] (package [vm]) is not
    among the sources; section 3 of the specification lists the closed
    enumeration. *)
Inductive Op : Type :=
| Inew | Iinc | Ishl | Iadd | Ineg | Isht | Itou | Itof
| Fneg | Fnan | Finf
| Snew | Sadd
| Onew | Oadd
| Anew | Aadd
| Bnew | Bneg
| Nnew.

Definition Op_eq_dec (a b : Op) : {a = b} + {a <> b}.
Proof. decide equality. Defined.

(** Modelled from the spec: the declaration of [Value] is not among the
    sources.  A value is a tagged variant with one active payload; the
    constructors carry the names of the Go constructors used by the tests.
    A Go map [map[string]*Value] is kept as the list of its entries in the
    order in which a [range] over it visits them, with the keys as byte
    strings; its keys are unique (see [well_typed]).  Go's [Kind] is an
    integer type, so a [Value] can carry a kind that is none of the eight
    declared ones: [UnknownKindValue k] stands for such a value. *)
Inductive Value : Type :=
| NewIntValue (i : int64)
| NewUintValue (u : uint64)
| NewFloatValue (x : float64)
| NewStringValue (s : list byte)
| NewObjectValue (obj : list (list byte * Value))
| NewArrayValue (arr : list Value)
| NewBoolValue (b : bool)
| NewNilValue
| UnknownKindValue (k : Z).

(** Every kind met in [v] is one of the eight declared kinds. *)
Fixpoint defined_kinds (v : Value) : bool :=
  match v with
  | NewObjectValue obj =>
      (fix entries (kvs : list (list byte * Value)) : bool :=
         match kvs with
         | [] => true
         | (_, x) :: rest => defined_kinds x && entries rest
         end) obj
  | NewArrayValue arr =>
      (fix elements (vs : list Value) : bool :=
         match vs with
         | [] => true
         | x :: rest => defined_kinds x && elements rest
         end) arr
  | UnknownKindValue _ => false
  | _ => true
  end.

Definition bytes_eqb (a b : list byte) : bool :=
  if list_eq_dec Byte.byte_eq_dec a b then true else false.

Fixpoint unique_keys (ks : list (list byte)) : bool :=
  match ks with
  | [] => true
  | k :: rest => negb (existsb (bytes_eqb k) rest) && unique_keys rest
  end.

(** What Go's types guarantee of a [Value]: the integers are 64-bit words
    and the keys of a map are pairwise different. *)
Fixpoint well_typed (v : Value) : bool :=
  match v with
  | NewIntValue i => is_int64 i
  | NewUintValue u => is_uint64 u
  | NewFloatValue x => is_uint64 x
  | NewObjectValue obj =>
      unique_keys (map fst obj) &&
      (fix entries (kvs : list (list byte * Value)) : bool :=
         match kvs with
         | [] => true
         | (_, x) :: rest => well_typed x && entries rest
         end) obj
  | NewArrayValue arr =>
      (fix elements (vs : list Value) : bool :=
         match vs with
         | [] => true
         | x :: rest => well_typed x && elements rest
         end) arr
  | _ => true
  end.

(** ** The dumper ([pkg/dumper/dumper.go]) *)

(** What a dumper method does: it returns [nil] ([Done]), returns an error of
    the sink ([Failed e]), or panics on an unknown kind ([Panicked k]). *)
Inductive result (E : Type) : Type :=
| Done
| Failed (e : E)
| Panicked (k : Z).

Arguments Done {E}.
Arguments Failed {E} e.
Arguments Panicked {E} k.

Section Dumper.

(** The sink [lexer.OpWriter]: a state [W] and one method [Write], which
    returns [nil] ([None]) or an error. *)
Context {W E : Type} (Write : Op -> W -> option E * W).

Definition M : Type := W -> result E * W.

(** [return nil] *)
Definition ret : M := fun w => (Done, w).

(** [panic(...)] *)
Definition panic (k : Z) : M := fun w => (Panicked k, w).

(** [err = a; if err != nil { return err }; b] *)
Definition andThen (a b : M) : M :=
  fun w => match a w with
           | (Done, w') => b w'
           | r => r
           end.

(** [d.w.Write(op)] *)
Definition emit (op : Op) : M :=
  fun w => match Write op w with
           | (None, w') => (Done, w')
           | (Some e, w') => (Failed e, w')
           end.

Notation "a ;; b" := (andThen a b) (at level 61, right associativity).

(** The loop of [dumpInt]: [for i := k-1; i >= 0; i--]. *)
Fixpoint dumpInt_loop (n : uint64) (k : nat) : M :=
  match k with
  | O => ret
  | S i =>
      emit Ishl ;;
      (if negb (Z.land n (Z.shiftl 1 (Z.of_nat i)) =? 0) then emit Iinc else ret) ;;
      dumpInt_loop n i
  end.

Definition dumpInt (n : uint64) : M :=
  emit Inew ;;
  if n =? 0 then ret
  else
    let msb := 63 - LeadingZeros64 n in
    emit Iinc ;;
    dumpInt_loop n (Z.to_nat msb).

Definition dumpUint (n : uint64) : M :=
  dumpInt n ;; emit Itou.

Definition dumpFloat (x : float64) : M :=
  if IsNaN x then emit Fnan
  else if IsInf x 1 then emit Finf
  else
    (if IsInf x (-1) then emit Finf ;; emit Fneg else ret) ;;
    dumpInt (Float64bits x) ;;
    emit Itof.

Fixpoint dumpString_loop (s : list byte) : M :=
  match s with
  | [] => ret
  | c :: rest => dumpInt (uint64_of_byte c) ;; emit Sadd ;; dumpString_loop rest
  end.

Definition dumpString (s : list byte) : M :=
  emit Snew ;; dumpString_loop s.

Definition dumpBool (b : bool) : M :=
  emit Bnew ;; if b then emit Bneg else ret.

Definition dumpNil : M := emit Nnew.

(** [dumpObject] and [dumpArray] call back into [Dump]; [dump] is that
    call.  The loops are the [range]s over the map and over the slice. *)
Section Range.

Variable dump : Value -> M.

Fixpoint dumpObject_range (kvs : list (list byte * Value)) : M :=
  match kvs with
  | [] => ret
  | (k, v) :: rest =>
      dumpString k ;; dump v ;; emit Oadd ;; dumpObject_range rest
  end.

Definition dumpObject (obj : list (list byte * Value)) : M :=
  emit Onew ;; dumpObject_range obj.

Fixpoint dumpArray_range (vs : list Value) : M :=
  match vs with
  | [] => ret
  | v :: rest => dump v ;; emit Aadd ;; dumpArray_range rest
  end.

Definition dumpArray (arr : list Value) : M :=
  emit Anew ;; dumpArray_range arr.

End Range.

Fixpoint Dump (v : Value) : M :=
  match v with
  | NewIntValue i => dumpInt (uint64_of_int64 i)
  | NewUintValue u => dumpUint u
  | NewFloatValue x => dumpFloat x
  | NewStringValue s => dumpString s
  | NewObjectValue obj => dumpObject Dump obj
  | NewArrayValue arr => dumpArray Dump arr
  | NewBoolValue b => dumpBool b
  | NewNilValue => dumpNil
  | UnknownKindValue k => panic k
  end.

(** Writing a list of ops one after the other, stopping at the first write
    the sink refuses. *)
Fixpoint WriteAll (ops : list Op) : M :=
  match ops with
  | [] => ret
  | op :: rest => emit op ;; WriteAll rest
  end.

End Dumper.

Arguments M : clear implicits.

(** [m] writes exactly [ops], in this order, to the sink [Write]: it stops
    at the first write the sink refuses and returns that error. *)
Definition emits {W E : Type} (Write : Op -> W -> option E * W)
  (m : M W E) (ops : list Op) : Prop :=
  forall w, m w = WriteAll Write ops w.

(** A sink that accepts every op and keeps what it was given. *)
Definition recorder (op : Op) (l : list Op) : option Empty_set * list Op :=
  (None, l ++ [op]).

(** The ops a dumper method writes to a sink that never fails. *)
Definition emitted (m : M (list Op) Empty_set) : list Op := snd (m []).

(** A sink that also keeps a log of the calls of [Write], each with the
    error it returned. *)
Definition logged {W E : Type} (Write : Op -> W -> option E * W)
  (op : Op) (s : W * list (Op * option E)) : option E * (W * list (Op * option E)) :=
  let (r, w') := Write op (fst s) in (r, (w', snd s ++ [(op, r)])).

(** *** The output of [dumpInt], [dumpString] in the specification's words *)

(** The index of the highest set bit of a positive [n]. *)
Definition highest_set_bit (n : Z) : Z := Z.log2 n.

(** For the bit indices [k-1], ..., [0]: [Ishl], then [Iinc] when the bit
    is set. *)
Definition shift_and_set (n : Z) (k : nat) : list Op :=
  flat_map (fun i => Ishl :: if Z.testbit n (Z.of_nat i) then [Iinc] else [])
           (rev (seq 0 k)).

Definition msb_first_ops (n : Z) : list Op :=
  Inew :: if n =? 0 then []
          else Iinc :: shift_and_set n (Z.to_nat (highest_set_bit n)).

(** [Snew], then for each byte the ops of [dumpInt] and [Sadd]. *)
Definition string_ops (s : list byte) : list Op :=
  Snew :: flat_map (fun c => msb_first_ops (uint64_of_byte c) ++ [Sadd]) s.

(** ** The stack machine *)

Inductive VMError : Type := ErrStackEmpty | ErrTypeMismatch.

(** The stack, top first; [sp] is the index of the top element in Go's
    slice, [-1] when the stack is empty. *)
Definition VM : Type := list Value.

Definition NewVM : VM := [].

Definition sp (vm : VM) : Z := Z.of_nat (length vm) - 1.

(** Values are trees without sharing here, so the deep copy of a value is
    the value. *)
Definition deep_copy (v : Value) : Value := v.

Fixpoint obj_get (k : list byte) (o : list (list byte * Value)) : option Value :=
  match o with
  | [] => None
  | (k', x) :: rest => if bytes_eqb k k' then Some x else obj_get k rest
  end.

(** [o[k] = x] on a Go map: the entry of [k] is overwritten when there is
    one, and added otherwise. *)
Fixpoint obj_set (k : list byte) (x : Value) (o : list (list byte * Value))
  : list (list byte * Value) :=
  match o with
  | [] => [(k, x)]
  | (k', x') :: rest =>
      if bytes_eqb k k' then (k, x) :: rest else (k', x') :: obj_set k x rest
  end.

(** Modelled from the spec: [Feed] (package [vm]) is not among the
    sources, only its tests are.  Section 4.1 gives each op's required
    stack and effect, and the error rule: too few operands is
    [ErrStackEmpty] whatever the kinds of those present; all operands
    present and one of the wrong kind is [ErrTypeMismatch]; a failing op
    leaves the stack as it was.  The result is the error ([None] for
    [nil]) and the stack after the call. *)
Definition Feed (op : Op) (vm : VM) : option VMError * VM :=
  match op with
  | Inew => (None, NewIntValue 0 :: vm)
  | Iinc =>
      match vm with
      | [] => (Some ErrStackEmpty, vm)
      | NewIntValue v :: rest => (None, NewIntValue (int64_of_Z (v + 1)) :: rest)
      | _ :: _ => (Some ErrTypeMismatch, vm)
      end
  | Ishl =>
      match vm with
      | [] => (Some ErrStackEmpty, vm)
      | NewIntValue v :: rest => (None, NewIntValue (int64_of_Z (v * 2)) :: rest)
      | _ :: _ => (Some ErrTypeMismatch, vm)
      end
  | Iadd =>
      match vm with
      | b :: a :: rest =>
          match a, b with
          | NewIntValue a, NewIntValue b =>
              (None, NewIntValue (int64_of_Z (a + b)) :: rest)
          | _, _ => (Some ErrTypeMismatch, vm)
          end
      | _ => (Some ErrStackEmpty, vm)
      end
  | Ineg =>
      match vm with
      | [] => (Some ErrStackEmpty, vm)
      | NewIntValue v :: rest => (None, NewIntValue (int64_of_Z (- v)) :: rest)
      | _ :: _ => (Some ErrTypeMismatch, vm)
      end
  | Isht =>
      match vm with
      | shift :: value :: rest =>
          match value, shift with
          | NewIntValue value, NewIntValue shift =>
              (None,
               NewIntValue (if 0 <=? shift
                            then int64_of_Z (Z.shiftl value shift)
                            else Z.shiftr value (- shift)) :: rest)
          | _, _ => (Some ErrTypeMismatch, vm)
          end
      | _ => (Some ErrStackEmpty, vm)
      end
  | Itou =>
      match vm with
      | [] => (Some ErrStackEmpty, vm)
      | NewIntValue v :: rest => (None, NewUintValue (uint64_of_int64 v) :: rest)
      | _ :: _ => (Some ErrTypeMismatch, vm)
      end
  | Itof =>
      match vm with
      | [] => (Some ErrStackEmpty, vm)
      | NewIntValue v :: rest => (None, NewFloatValue (uint64_of_int64 v) :: rest)
      | _ :: _ => (Some ErrTypeMismatch, vm)
      end
  | Fneg =>
      match vm with
      | [] => (Some ErrStackEmpty, vm)
      | NewFloatValue x :: rest => (None, NewFloatValue (Z.lxor x (2 ^ 63)) :: rest)
      | _ :: _ => (Some ErrTypeMismatch, vm)
      end
  | Fnan => (None, NewFloatValue go_NaN :: vm)
  | Finf => (None, NewFloatValue pos_inf :: vm)
  | Snew => (None, NewStringValue [] :: vm)
  | Sadd =>
      match vm with
      | c :: s :: rest =>
          match s, c with
          | NewStringValue s, NewIntValue c =>
              (None, NewStringValue (s ++ [byte_of_Z c]) :: rest)
          | _, _ => (Some ErrTypeMismatch, vm)
          end
      | _ => (Some ErrStackEmpty, vm)
      end
  | Onew => (None, NewObjectValue [] :: vm)
  | Oadd =>
      match vm with
      | v :: k :: o :: rest =>
          match o, k with
          | NewObjectValue o, NewStringValue k =>
              (None, NewObjectValue (obj_set k (deep_copy v) o) :: rest)
          | _, _ => (Some ErrTypeMismatch, vm)
          end
      | _ => (Some ErrStackEmpty, vm)
      end
  | Anew => (None, NewArrayValue [] :: vm)
  | Aadd =>
      match vm with
      | v :: a :: rest =>
          match a with
          | NewArrayValue a => (None, NewArrayValue (a ++ [deep_copy v]) :: rest)
          | _ => (Some ErrTypeMismatch, vm)
          end
      | _ => (Some ErrStackEmpty, vm)
      end
  | Bnew => (None, NewBoolValue false :: vm)
  | Bneg =>
      match vm with
      | [] => (Some ErrStackEmpty, vm)
      | NewBoolValue b :: rest => (None, NewBoolValue (negb b) :: rest)
      | _ :: _ => (Some ErrTypeMismatch, vm)
      end
  | Nnew => (None, NewNilValue :: vm)
  end.

(** Modelled from the spec: [FeedMulti] runs the ops from left to right
    and stops at the first error, keeping what the earlier ops did. *)
Fixpoint FeedMulti (ops : list Op) (vm : VM) : option VMError * VM :=
  match ops with
  | [] => (None, vm)
  | op :: rest =>
      match Feed op vm with
      | (None, vm') => FeedMulti rest vm'
      | r => r
      end
  end.

(** Modelled from the spec: [Top] returns the top value and leaves the
    stack alone; it fails with [ErrStackEmpty] when [sp < 0]. *)
Definition Top (vm : VM) : VMError + Value :=
  match vm with
  | [] => inl ErrStackEmpty
  | v :: _ => inr v
  end.

(** The number of operands of an op (the column "required stack" of the
    table of section 4.1). *)
Definition operands (op : Op) : nat :=
  match op with
  | Inew | Fnan | Finf | Snew | Onew | Anew | Bnew | Nnew => 0
  | Iinc | Ishl | Ineg | Itou | Itof | Fneg | Bneg => 1
  | Iadd | Isht | Sadd | Aadd => 2
  | Oadd => 3
  end.

(** Feeding a fresh machine with what [Dump v] writes, then [Top]. *)
Definition round_trip (v : Value) : VMError + Value :=
  match FeedMulti (emitted (Dump recorder v)) NewVM with
  | (None, vm) => Top vm
  | (Some e, _) => inl e
  end.

(** ** Structural equality of values

    Ints, uints, floats (as bit patterns), strings and bools by their
    payload; arrays element by element in order; objects as Go maps: the
    same number of entries and every key of one bound to an equal value in
    the other. *)
Fixpoint value_eqb (a b : Value) : bool :=
  match a, b with
  | NewIntValue i, NewIntValue j => i =? j
  | NewUintValue i, NewUintValue j => i =? j
  | NewFloatValue x, NewFloatValue y => x =? y
  | NewStringValue s, NewStringValue t => bytes_eqb s t
  | NewObjectValue o1, NewObjectValue o2 =>
      (length o1 =? length o2)%nat &&
      (fix entries (kvs : list (list byte * Value)) : bool :=
         match kvs with
         | [] => true
         | (k, x) :: rest =>
             match obj_get k o2 with
             | Some y => value_eqb x y
             | None => false
             end && entries rest
         end) o1
  | NewArrayValue a1, NewArrayValue a2 =>
      (fix elements (xs ys : list Value) : bool :=
         match xs, ys with
         | [], [] => true
         | x :: xs', y :: ys' => value_eqb x y && elements xs' ys'
         | _, _ => false
         end) a1 a2
  | NewBoolValue b1, NewBoolValue b2 => Bool.eqb b1 b2
  | NewNilValue, NewNilValue => true
  | UnknownKindValue k1, UnknownKindValue k2 => k1 =? k2
  | _, _ => false
  end.

(** [v] with every NaN replaced by the NaN that [Fnan] pushes. *)
Fixpoint canonical_NaN (v : Value) : Value :=
  match v with
  | NewFloatValue x => NewFloatValue (if IsNaN x then go_NaN else x)
  | NewObjectValue obj =>
      NewObjectValue (map (fun kv => (fst kv, canonical_NaN (snd kv))) obj)
  | NewArrayValue arr => NewArrayValue (map canonical_NaN arr)
  | _ => v
  end.

(** No float in [v] is -Inf. *)
Fixpoint no_neg_inf (v : Value) : bool :=
  match v with
  | NewFloatValue x => negb (IsInf x (-1))
  | NewObjectValue obj =>
      (fix entries (kvs : list (list byte * Value)) : bool :=
         match kvs with
         | [] => true
         | (_, x) :: rest => no_neg_inf x && entries rest
         end) obj
  | NewArrayValue arr =>
      (fix elements (vs : list Value) : bool :=
         match vs with
         | [] => true
         | x :: rest => no_neg_inf x && elements rest
         end) arr
  | _ => true
  end.

(** ** The native-value adapter (package [any]) *)

(** [reflect.Kind]. *)
Module reflect.
Inductive Kind : Type :=
| Invalid | Bool
| Int | Int8 | Int16 | Int32 | Int64
| Uint | Uint8 | Uint16 | Uint32 | Uint64 | Uintptr
| Float32 | Float64 | Complex64 | Complex128
| Array | Chan | Func | Interface | Map | Pointer | Slice | String | Struct
| UnsafePointer.
End reflect.

Inductive IntType : Type := TInt | TInt8 | TInt16 | TInt32 | TInt64.
Inductive UintType : Type := TUint | TUint8 | TUint16 | TUint32 | TUint64.
Inductive FloatType : Type := TFloat32 | TFloat64.

(** A Go value together with its type, as [reflect] sees it.

    [named] is [true] when the type is a defined type ([type T ...]) and not
    the predeclared one: a type switch on [bool], [int], ..., [[]byte],
    [string] matches the predeclared types only, while the kind of a defined
    type is the kind of its underlying type.  An integer is kept as the
    [int64] or [uint64] it converts to, a [float32] as the [float64] it
    converts to.  [None] is the nil slice, map, pointer or interface.  The
    elements of a slice and of a map carry the element type of the
    container: those of a [[]interface{}] or a [map[string]interface{}] are
    [NInterface]s. *)
Inductive Native : Type :=
| NBool (named : bool) (b : bool)
| NInt (t : IntType) (named : bool) (n : int64)
| NUint (t : UintType) (named : bool) (n : uint64)
| NUintptr (n : uint64)
| NFloat (t : FloatType) (named : bool) (x : float64)
| NComplex (wide : bool)
| NString (named : bool) (s : list byte)
| NBytes (named : bool) (s : option (list byte))
| NSlice (s : option (list Native))
| NStringMap (m : option (list (list byte * Native)))
| NOtherMap (is_nil : bool)
| NPointer (is_nil : bool)
| NChan (is_nil : bool)
| NFunc (is_nil : bool)
| NUnsafePointer (is_nil : bool)
| NArray
| NStruct
| NInterface (dyn : option Native).

(** [v.Type().Kind()] *)
Definition Kind_of (v : Native) : reflect.Kind :=
  match v with
  | NBool _ _ => reflect.Bool
  | NInt TInt _ _ => reflect.Int
  | NInt TInt8 _ _ => reflect.Int8
  | NInt TInt16 _ _ => reflect.Int16
  | NInt TInt32 _ _ => reflect.Int32
  | NInt TInt64 _ _ => reflect.Int64
  | NUint TUint _ _ => reflect.Uint
  | NUint TUint8 _ _ => reflect.Uint8
  | NUint TUint16 _ _ => reflect.Uint16
  | NUint TUint32 _ _ => reflect.Uint32
  | NUint TUint64 _ _ => reflect.Uint64
  | NUintptr _ => reflect.Uintptr
  | NFloat TFloat32 _ _ => reflect.Float32
  | NFloat TFloat64 _ _ => reflect.Float64
  | NComplex false => reflect.Complex64
  | NComplex true => reflect.Complex128
  | NString _ _ => reflect.String
  | NBytes _ _ => reflect.Slice
  | NSlice _ => reflect.Slice
  | NStringMap _ => reflect.Map
  | NOtherMap _ => reflect.Map
  | NPointer _ => reflect.Pointer
  | NChan _ => reflect.Chan
  | NFunc _ => reflect.Func
  | NUnsafePointer _ => reflect.UnsafePointer
  | NArray => reflect.Array
  | NStruct => reflect.Struct
  | NInterface _ => reflect.Interface
  end.

(** What a panic of the adapter carries: [FromValue]'s "invalid kind",
    [reflectValueToValue]'s "can't convert <type>", and the
    [*reflect.ValueError] of [reflect.Value.IsNil] called on a value whose
    kind has no nil. *)
Inductive panic_value : Type :=
| InvalidKind (k : Z)
| CantConvert (v : Native)
| IsNilValueError (k : reflect.Kind).

Inductive outcome (A : Type) : Type :=
| Returns (a : A)
| Panics (p : panic_value).

Arguments Returns {A} a.
Arguments Panics {A} p.

(** The loops of [FromValue] over a map and over a slice; [convert] is the
    call back into [FromValue], [obj] and [arr] are the map and the slice
    built so far.  [obj[k] = x] adds an entry, the keys of the map ranged
    over being pairwise different. *)
Section FromValueRange.

Variable convert : Value -> outcome (option Native).

Fixpoint FromValue_object (kvs : list (list byte * Value))
  (obj : list (list byte * Native)) : outcome (option Native) :=
  match kvs with
  | [] => Returns (Some (NStringMap (Some obj)))
  | (k, v) :: rest =>
      match convert v with
      | Returns x => FromValue_object rest (obj ++ [(k, NInterface x)])
      | Panics p => Panics p
      end
  end.

Fixpoint FromValue_array (vs : list Value) (arr : list Native)
  : outcome (option Native) :=
  match vs with
  | [] => Returns (Some (NSlice (Some arr)))
  | v :: rest =>
      match convert v with
      | Returns x => FromValue_array rest (arr ++ [NInterface x])
      | Panics p => Panics p
      end
  end.

End FromValueRange.

(** [FromValue]; the result is an [interface{}]: [None] is [nil], [Some d]
    holds the dynamic value [d]. *)
Fixpoint FromValue (val : Value) : outcome (option Native) :=
  match val with
  | NewIntValue i => Returns (Some (NInt TInt64 false i))
  | NewUintValue u => Returns (Some (NUint TUint64 false u))
  | NewFloatValue x => Returns (Some (NFloat TFloat64 false x))
  | NewStringValue s => Returns (Some (NString false s))
  | NewObjectValue o => FromValue_object FromValue o []
  | NewArrayValue a => FromValue_array FromValue a []
  | NewBoolValue b => Returns (Some (NBool false b))
  | NewNilValue => Returns None
  | UnknownKindValue k => Panics (InvalidKind k)
  end.

Definition isIntFamily (v : Native) : bool :=
  match Kind_of v with
  | reflect.Int | reflect.Int8 | reflect.Int16 | reflect.Int32 | reflect.Int64 => true
  | _ => false
  end.

Definition isUintFamily (v : Native) : bool :=
  match Kind_of v with
  | reflect.Uint | reflect.Uint8 | reflect.Uint16 | reflect.Uint32 | reflect.Uint64 => true
  | _ => false
  end.

Definition isFloatFamily (v : Native) : bool :=
  match Kind_of v with
  | reflect.Float32 | reflect.Float64 => true
  | _ => false
  end.

Definition isBool (v : Native) : bool :=
  match Kind_of v with reflect.Bool => true | _ => false end.

Definition isString (v : Native) : bool :=
  match Kind_of v with reflect.String => true | _ => false end.

(** [Kind() == reflect.Slice && Elem() == reflect.TypeOf(byte(0))] *)
Definition isBytes (v : Native) : bool :=
  match v with NBytes _ _ => true | _ => false end.

(** [Kind() == reflect.Map && Key().Kind() == reflect.String] *)
Definition isMapConvertibleToValue (v : Native) : bool :=
  match v with NStringMap _ => true | _ => false end.

(** [v.IsNil()]: defined on chan, func, interface, map, pointer, slice and
    unsafe pointer values; it panics on the others ([None]). *)
Definition IsNil (v : Native) : option bool :=
  match v with
  | NBytes _ None | NSlice None | NStringMap None | NInterface None => Some true
  | NBytes _ (Some _) | NSlice (Some _) | NStringMap (Some _)
  | NInterface (Some _) => Some false
  | NOtherMap n | NPointer n | NChan n | NFunc n | NUnsafePointer n => Some n
  | _ => None
  end.

(** The accessors [v.Int()], [v.Uint()], [v.Float()], [v.Bool()],
    [v.String()], [v.Bytes()], each called after the test of its kind. *)
Definition reflectIntToValue (v : Native) : Value :=
  NewIntValue (match v with NInt _ _ n => n | _ => 0 end).

Definition reflectUintToValue (v : Native) : Value :=
  NewUintValue (match v with NUint _ _ n => n | _ => 0 end).

Definition reflectFloatToValue (v : Native) : Value :=
  NewFloatValue (match v with NFloat _ _ x => x | _ => 0 end).

Definition reflectBoolToValue (v : Native) : Value :=
  NewBoolValue (match v with NBool _ b => b | _ => false end).

Definition reflectStringToValue (v : Native) : Value :=
  NewStringValue (match v with NString _ s => s | _ => [] end).

Definition reflectBytesToValue (v : Native) : Value :=
  NewStringValue (match v with NBytes _ (Some s) => s | _ => [] end).

(** [reflectMapToValue]; [convert] is the call back into
    [reflectValueToValue], [obj] the map built so far.  It is called on
    string-keyed maps only; a [range] over a nil map visits nothing. *)
Section ReflectMapRange.

Variable convert : Native -> outcome Value.

Fixpoint reflectMapToValue_range (kvs : list (list byte * Native))
  (obj : list (list byte * Value)) : outcome Value :=
  match kvs with
  | [] => Returns (NewObjectValue obj)
  | (k, x) :: rest =>
      match convert x with
      | Returns y => reflectMapToValue_range rest (obj_set k y obj)
      | Panics p => Panics p
      end
  end.

Definition reflectMapToValue (v : Native) : outcome Value :=
  match v with
  | NStringMap (Some m) => reflectMapToValue_range m []
  | _ => Returns (NewObjectValue [])
  end.

End ReflectMapRange.

Fixpoint reflectValueToValue (v : Native) : outcome Value :=
  if isIntFamily v then Returns (reflectIntToValue v)
  else if isUintFamily v then Returns (reflectUintToValue v)
  else if isFloatFamily v then Returns (reflectFloatToValue v)
  else if isBool v then Returns (reflectBoolToValue v)
  else if isString v then Returns (reflectStringToValue v)
  else
    match IsNil v with
    | None => Panics (IsNilValueError (Kind_of v))
    | Some true => Returns NewNilValue
    | Some false =>
        if isBytes v then Returns (reflectBytesToValue v)
        else if isMapConvertibleToValue v then reflectMapToValue reflectValueToValue v
        else Panics (CantConvert v)
    end.

(** [ToValue]: the nil interface, then the type switch on the predeclared
    types, then [reflectValueToValue(reflect.ValueOf(v))]. *)
Definition ToValue (v : option Native) : outcome Value :=
  match v with
  | None => Returns NewNilValue
  | Some d =>
      match d with
      | NBool false b => Returns (NewBoolValue b)
      | NInt _ false n => Returns (NewIntValue n)
      | NUint _ false n => Returns (NewUintValue n)
      | NBytes false s =>
          Returns (NewStringValue (match s with Some w => w | None => [] end))
      | NString false s => Returns (NewStringValue s)
      | NFloat _ false x => Returns (NewFloatValue x)
      | _ => reflectValueToValue d
      end
  end.

(** [ToValue(FromValue(v))] *)
Definition back_and_forth (v : Value) : outcome Value :=
  match FromValue v with
  | Returns n => ToValue n
  | Panics p => Panics p
  end.

(** A nil-valued reference: a value on which [IsNil] answers [true]. *)
Definition is_nil_reference (v : Native) : bool :=
  match IsNil v with Some true => true | _ => false end.

(** [v] falls under none of the conversion rules: it is no nil reference,
    no bool, integer, float, string or byte sequence, and no string-keyed
    map. *)
Definition matches_no_rule (v : Native) : bool :=
  negb (is_nil_reference v) &&
  negb (isBool v || isIntFamily v || isUintFamily v || isFloatFamily v ||
        isString v || isBytes v || isMapConvertibleToValue v).

(** The six kinds with a payload that [ToValue] takes back as it is. *)
Definition is_scalar (v : Value) : bool :=
  match v with
  | NewIntValue _ | NewUintValue _ | NewFloatValue _ | NewStringValue _
  | NewBoolValue _ | NewNilValue => true
  | _ => false
  end.

(** ** Sinks that fail, and what the log of a run shows *)

(** A sink that counts the writes and refuses the write number [k] (from
    zero) with the error [err]. *)
Definition refuses_write (k : nat) (err : nat) (op : Op) (count : nat)
  : option nat * nat :=
  (if Nat.eqb count k then Some err else None, S count).

(** No call in the log was refused. *)
Definition all_accepted {E : Type} (log : list (Op * option E)) : Prop :=
  Forall (fun call => snd call = None) log.

(** The log [s] of the calls a method made fits what it returned: when it
    returned the error [e], the last call is the one that was refused, with
    [e]; no other call was refused. *)
Definition log_fits {E : Type} (out : result E) (s : list (Op * option E)) : Prop :=
  match out with
  | Failed e => exists s0 op, s = s0 ++ [(op, Some e)] /\ all_accepted s0
  | _ => all_accepted s
  end.

(** A method that, run on a logging sink, appends to the log calls that fit
    its result. *)
Definition disciplined {W E : Type} (m : M (W * list (Op * option E)) E) : Prop :=
  forall w l, exists s,
    snd (snd (m (w, l))) = l ++ s /\ log_fits (fst (m (w, l))) s.

(** A method that returns [nil] or an error, and does not panic. *)
Definition never_panics {W E : Type} (m : M W E) : Prop :=
  forall w, fst (m w) = Done \/ exists e, fst (m w) = Failed e.

(** On the recording sink, [m] writes what [emitted m] lists and returns
    [nil]. *)
Definition recorded (m : M (list Op) Empty_set) : Prop :=
  emits recorder m (emitted m).

(** Fed to the machine, [ops] push [x], whatever is below. *)
Definition builds (ops : list Op) (x : Value) : Prop :=
  forall st, FeedMulti ops st = (None, x :: st).

(** ** Sample values *)

(** A NaN with another payload than [go_NaN] (the quiet NaN with an empty
    payload). *)
Definition quiet_NaN : float64 := 0x7FF8000000000000.

(** [{"a": -5, "b": [7, true, nil, "\xff\x00", NaN, +Inf, 1.0]}] *)
Definition sample_value : Value :=
  NewObjectValue
    [([x61], NewIntValue (-5));
     ([x62], NewArrayValue
               [NewUintValue 7; NewBoolValue true; NewNilValue;
                NewStringValue [xff; x00]; NewFloatValue quiet_NaN;
                NewFloatValue pos_inf; NewFloatValue 0x3FF0000000000000])].

(** Case analysis on a native value: its constructor, its type among the
    integer and float types, its flags, and whether it is nil. *)
Ltac by_native_cases v :=
  destruct v;
  repeat match goal with
         | t : IntType |- _ => destruct t
         | t : UintType |- _ => destruct t
         | t : FloatType |- _ => destruct t
         | b : bool |- _ => destruct b
         | o : option _ |- _ => destruct o
         end.

(** ** Further notions for the facts on the dumper and the adapter *)

(** A sink that refuses no write. *)
Definition accepts_all {W E : Type} (Write : Op -> W -> option E * W) : Prop :=
  forall op w, fst (Write op w) = None.

(** The ops that occur in [dumper.go]: all but [Iadd], [Ineg] and [Isht]. *)
Definition dumper_op (op : Op) : bool :=
  match op with
  | Iadd | Ineg | Isht => false
  | _ => true
  end.

(** No array occurs in [v]. *)
Fixpoint array_free (v : Value) : bool :=
  match v with
  | NewObjectValue obj =>
      (fix entries (kvs : list (list byte * Value)) : bool :=
         match kvs with
         | [] => true
         | (_, x) :: rest => array_free x && entries rest
         end) obj
  | NewArrayValue _ => false
  | _ => true
  end.

(** A method that returns [nil], whatever the state of the sink. *)
Definition returns_nil {W E : Type} (m : M W E) : Prop :=
  forall w, fst (m w) = Done.

(** A method that returns [nil] when [defined] holds, and panics otherwise. *)
Definition nil_or_panic {W E : Type} (m : M W E) (defined : bool) : Prop :=
  forall w, if defined then fst (m w) = Done
            else exists k, fst (m w) = Panicked k.

(** An outcome that is a value when [defined] holds, and the panic "invalid
    kind" otherwise. *)
Definition returns_iff_defined {A : Type} (r : outcome A) (defined : bool) : Prop :=
  match r with
  | Returns _ => defined = true
  | Panics p => defined = false /\ exists k, p = InvalidKind k
  end.

(** * Facts *)

(** ** Words and bits *)

Lemma is_uint64_iff (n : Z) : is_uint64 n = true <-> 0 <= n < 2 ^ 64.
Proof. unfold is_uint64. rewrite andb_true_iff, Z.leb_le, Z.ltb_lt. tauto. Qed.

Lemma is_int64_iff (n : Z) : is_int64 n = true <-> - 2 ^ 63 <= n < 2 ^ 63.
Proof. unfold is_int64. rewrite andb_true_iff, Z.leb_le, Z.ltb_lt. tauto. Qed.

Lemma land_pow2 (n i : Z) :
  0 <= i -> Z.land n (2 ^ i) = if Z.testbit n i then 2 ^ i else 0.
Proof.
  intros Hi. apply Z.bits_inj'. intros j Hj.
  rewrite Z.land_spec, Z.pow2_bits_eqb by assumption.
  destruct (Z.eqb_spec i j) as [->|Hne].
  - destruct (Z.testbit n j) eqn:Hb; simpl.
    + now rewrite Z.pow2_bits_true.
    + now rewrite Z.bits_0.
  - rewrite andb_false_r. destruct (Z.testbit n i).
    + now rewrite Z.pow2_bits_false.
    + now rewrite Z.bits_0.
Qed.

(** The mask test of [dumpInt]'s loop reads bit [i]. *)
Lemma mask_test (n : Z) (i : nat) :
  negb (Z.land n (Z.shiftl 1 (Z.of_nat i)) =? 0) = Z.testbit n (Z.of_nat i).
Proof.
  rewrite Z.shiftl_1_l, land_pow2 by lia.
  destruct (Z.testbit n (Z.of_nat i)); [|reflexivity].
  assert (0 < 2 ^ Z.of_nat i) by (apply Z.pow_pos_nonneg; lia).
  destruct (Z.eqb_spec (2 ^ Z.of_nat i) 0); [lia|reflexivity].
Qed.

Lemma leading_zeros_log2 (w : nat) (n : Z) :
  0 < n < 2 ^ Z.of_nat w -> leading_zeros w n = Z.of_nat w - 1 - Z.log2 n.
Proof.
  induction w as [|w IH]; intros Hn.
  - simpl in Hn. lia.
  - cbn [leading_zeros].
    replace (Z.of_nat (S w)) with (Z.succ (Z.of_nat w)) in * by lia.
    destruct (Z.testbit n (Z.of_nat w)) eqn:Hb.
    + assert (Z.of_nat w <= Z.log2 n).
      { destruct (Z_lt_le_dec (Z.log2 n) (Z.of_nat w)) as [Hlt|]; [|assumption].
        rewrite Z.bits_above_log2 in Hb by lia. discriminate. }
      assert (Z.log2 n < Z.succ (Z.of_nat w)) by (apply Z.log2_lt_pow2; lia).
      lia.
    + assert (n < 2 ^ Z.of_nat w).
      { destruct (Z_lt_le_dec n (2 ^ Z.of_nat w)) as [|Hge]; [assumption|].
        assert (Z.log2 n = Z.of_nat w) by (apply Z.log2_unique; lia).
        pose proof (Z.bit_log2 n ltac:(lia)) as Hl. congruence. }
      rewrite IH by lia. lia.
Qed.

(** [63 - bits.LeadingZeros64(n)] is the index of the highest set bit. *)
Lemma msb_highest_set_bit (n : Z) :
  0 < n < 2 ^ 64 -> 63 - LeadingZeros64 n = highest_set_bit n.
Proof.
  intros Hn. unfold LeadingZeros64, highest_set_bit.
  rewrite leading_zeros_log2 by (change (Z.of_nat 64) with 64; lia). lia.
Qed.

Lemma shift_and_set_S (n : Z) (i : nat) :
  shift_and_set n (S i) =
  (Ishl :: if Z.testbit n (Z.of_nat i) then [Iinc] else []) ++ shift_and_set n i.
Proof. unfold shift_and_set. rewrite seq_S, rev_app_distr. reflexivity. Qed.

Lemma count_Ishl_shift_and_set (n : Z) (k : nat) :
  count_occ Op_eq_dec (shift_and_set n k) Ishl = k.
Proof.
  induction k as [|k IH]; [reflexivity|].
  rewrite shift_and_set_S. cbn [app count_occ].
  destruct (Op_eq_dec Ishl Ishl) as [_|Hne]; [|congruence].
  destruct (Z.testbit n (Z.of_nat k)); cbn [app count_occ].
  - destruct (Op_eq_dec Iinc Ishl); [discriminate|]. now rewrite IH.
  - now rewrite IH.
Qed.

(** ** The dumper writes a fixed list of ops *)

Section DumperFacts.

Context {W E : Type} (Write : Op -> W -> option E * W).

Local Notation "a ;; b" := (andThen a b) (at level 61, right associativity).

Lemma emits_ret : emits Write ret [].
Proof. intros w. reflexivity. Qed.

Lemma emits_emit (op : Op) : emits Write (emit Write op) [op].
Proof.
  intros w. cbn [WriteAll]. unfold andThen, emit, ret.
  destruct (Write op w) as [[e|] w']; reflexivity.
Qed.

Lemma WriteAll_app (a b : list Op) (w : W) :
  WriteAll Write (a ++ b) w = (WriteAll Write a ;; WriteAll Write b) w.
Proof.
  revert w. induction a as [|op a IH]; intros w.
  - reflexivity.
  - cbn [app WriteAll].
    assert (Hstep : forall m : M W E,
               (emit Write op ;; m) w =
               match emit Write op w with (Done, w') => m w' | r => r end)
      by reflexivity.
    rewrite Hstep. unfold andThen at 1. rewrite Hstep.
    destruct (emit Write op w) as [[|e|k] w']; try reflexivity.
    apply IH.
Qed.

Lemma emits_andThen (a b : M W E) (la lb : list Op) :
  emits Write a la -> emits Write b lb -> emits Write (a ;; b) (la ++ lb).
Proof.
  intros Ha Hb w. rewrite WriteAll_app. unfold andThen.
  rewrite Ha. destruct (WriteAll Write la w) as [[|e|k] w']; try reflexivity.
  apply Hb.
Qed.

Lemma emits_cons (op : Op) (b : M W E) (lb : list Op) :
  emits Write b lb -> emits Write (emit Write op ;; b) (op :: lb).
Proof. intros Hb. apply (emits_andThen _ _ [op] lb); [apply emits_emit|exact Hb]. Qed.

Lemma dumpInt_loop_emits (n : Z) (k : nat) :
  emits Write (dumpInt_loop Write n k) (shift_and_set n k).
Proof.
  induction k as [|k IH].
  - apply emits_ret.
  - cbn [dumpInt_loop]. rewrite shift_and_set_S, mask_test.
    cbn [app]. apply emits_cons.
    destruct (Z.testbit n (Z.of_nat k)).
    + apply emits_cons, IH.
    + apply (emits_andThen _ _ [] _ emits_ret IH).
Qed.

Lemma dumpInt_emits (n : Z) :
  0 <= n < 2 ^ 64 -> emits Write (dumpInt Write n) (msb_first_ops n).
Proof.
  intros Hn. unfold dumpInt, msb_first_ops. apply emits_cons.
  destruct (Z.eqb_spec n 0) as [|Hnz].
  - apply emits_ret.
  - cbv zeta. rewrite msb_highest_set_bit by lia.
    apply emits_cons, dumpInt_loop_emits.
Qed.

End DumperFacts.

Lemma WriteAll_recorder (ops l : list Op) :
  WriteAll recorder ops l = (Done, l ++ ops).
Proof.
  revert l. induction ops as [|op ops IH]; intros l.
  - cbn. now rewrite app_nil_r.
  - cbn [WriteAll]. unfold andThen, emit, recorder at 1.
    rewrite IH, <- app_assoc. reflexivity.
Qed.

Lemma emits_emitted (m : M (list Op) Empty_set) (ops : list Op) :
  emits recorder m ops -> emitted m = ops.
Proof. intros H. unfold emitted. rewrite H, WriteAll_recorder. reflexivity. Qed.

Lemma uint64_of_byte_range (c : byte) : 0 <= uint64_of_byte c < 256.
Proof. unfold uint64_of_byte. pose proof (Byte.to_N_bounded c). lia. Qed.

Lemma dumpString_loop_emits {W E : Type} (Write : Op -> W -> option E * W)
  (s : list byte) :
  emits Write (dumpString_loop Write s)
        (flat_map (fun c => msb_first_ops (uint64_of_byte c) ++ [Sadd]) s).
Proof.
  induction s as [|c s IH].
  - apply emits_ret.
  - cbn [dumpString_loop flat_map]. rewrite <- app_assoc.
    apply emits_andThen.
    + apply dumpInt_emits. pose proof (uint64_of_byte_range c). lia.
    + apply emits_cons, IH.
Qed.

Lemma dumpString_emits {W E : Type} (Write : Op -> W -> option E * W)
  (s : list byte) :
  emits Write (dumpString Write s) (string_ops s).
Proof. apply emits_cons, dumpString_loop_emits. Qed.

(** C3.  For every unsigned 64-bit [n], whatever the sink, [dumpInt n]
    writes [Inew] and, when [n] is zero, nothing else; otherwise [Iinc] and
    then, for the bit indices from one below the highest set bit down to
    zero, [Ishl] followed by [Iinc] exactly when that bit of [n] is set.
    The output holds as many [Ishl] as the index of the highest set bit, and
    the outputs for 0, 1 and 3 are [Inew], [Inew Iinc] and
    [Inew Iinc Ishl Iinc]. *)
Theorem dumpInt_msb_first (n : Z) :
  0 <= n < 2 ^ 64 ->
  (forall (W E : Type) (Write : Op -> W -> option E * W),
      emits Write (dumpInt Write n) (msb_first_ops n)) /\
  emitted (dumpInt recorder n) = msb_first_ops n /\
  (0 < n ->
   Z.testbit n (highest_set_bit n) = true /\
   (forall j, highest_set_bit n < j -> Z.testbit n j = false) /\
   count_occ Op_eq_dec (emitted (dumpInt recorder n)) Ishl
   = Z.to_nat (highest_set_bit n)) /\
  (n = 0 -> emitted (dumpInt recorder n) = [Inew]) /\
  (n = 1 -> emitted (dumpInt recorder n) = [Inew; Iinc]) /\
  (n = 3 -> emitted (dumpInt recorder n) = [Inew; Iinc; Ishl; Iinc]).
Proof.
  intros Hn.
  assert (Hrec : emitted (dumpInt recorder n) = msb_first_ops n)
    by (apply emits_emitted, dumpInt_emits, Hn).
  split; [intros W E Write; apply dumpInt_emits, Hn|].
  split; [exact Hrec|].
  repeat split.
  - apply Z.bit_log2. assumption.
  - intros j Hj. apply Z.bits_above_log2; [lia|exact Hj].
  - rewrite Hrec. unfold msb_first_ops.
    destruct (Z.eqb_spec n 0); [lia|].
    cbn [count_occ].
    destruct (Op_eq_dec Inew Ishl); [discriminate|].
    destruct (Op_eq_dec Iinc Ishl); [discriminate|].
    apply count_Ishl_shift_and_set.
  - intros ->. reflexivity.
  - intros ->. reflexivity.
  - intros ->. reflexivity.
Qed.

Lemma dumpInt_msb_first_witness :
  (0 <= 3 < 2 ^ 64) /\
  emitted (dumpInt recorder 3) = [Inew; Iinc; Ishl; Iinc] /\
  count_occ Op_eq_dec (emitted (dumpInt recorder 3)) Ishl = 1%nat.
Proof.
  assert (H3 : 0 <= 3 < 2 ^ 64) by (split; [discriminate|reflexivity]).
  split; [exact H3|].
  destruct (dumpInt_msb_first 3 H3) as (_ & _ & Hpos & _ & _ & H).
  split; [exact (H eq_refl)|].
  exact (proj2 (proj2 (Hpos eq_refl))).
Defined.

(** C9.  For every byte sequence [s], whatever the sink, [Dump] on
    [String(s)] writes [Snew] and then, for each byte of [s] in order, the
    ops of [dumpInt] for that byte followed by [Sadd]. *)
Theorem Dump_string_emits (s : list byte) :
  (forall (W E : Type) (Write : Op -> W -> option E * W),
      emits Write (Dump Write (NewStringValue s))
            (Snew :: flat_map (fun c => emitted (dumpInt recorder (uint64_of_byte c))
                                        ++ [Sadd]) s)) /\
  emitted (Dump recorder (NewStringValue s)) = string_ops s.
Proof.
  assert (Heq : flat_map (fun c => emitted (dumpInt recorder (uint64_of_byte c))
                                   ++ [Sadd]) s
                = flat_map (fun c => msb_first_ops (uint64_of_byte c) ++ [Sadd]) s).
  { apply flat_map_ext. intros c. f_equal.
    apply emits_emitted, dumpInt_emits.
    pose proof (uint64_of_byte_range c). lia. }
  split.
  - intros W E Write. rewrite Heq. apply (dumpString_emits Write s).
  - apply emits_emitted. apply (dumpString_emits recorder s).
Qed.

(** ** Floats *)

Lemma dumpFloat_emits {W E : Type} (Write : Op -> W -> option E * W) (x : float64) :
  0 <= x < 2 ^ 64 ->
  emits Write (dumpFloat Write x)
        (if IsNaN x then [Fnan]
         else if IsInf x 1 then [Finf]
         else (if IsInf x (-1) then [Finf; Fneg] else [])
              ++ msb_first_ops x ++ [Itof]).
Proof.
  intros Hx. unfold dumpFloat.
  destruct (IsNaN x); [apply emits_emit|].
  destruct (IsInf x 1); [apply emits_emit|].
  apply emits_andThen.
  - destruct (IsInf x (-1)).
    + apply emits_cons, emits_emit.
    + apply emits_ret.
  - apply emits_andThen; [apply dumpInt_emits, Hx|apply emits_emit].
Qed.

(** A NaN gives [Fnan], +Inf gives [Finf], and any other float but -Inf
    gives the ops of [dumpInt] on its bits and [Itof], with nothing more. *)
Lemma dumpFloat_but_neg_inf (x : float64) :
  0 <= x < 2 ^ 64 ->
  IsInf x (-1) = false ->
  emitted (dumpFloat recorder x) =
  if IsNaN x then [Fnan]
  else if IsInf x 1 then [Finf]
  else emitted (dumpInt recorder (Float64bits x)) ++ [Itof].
Proof.
  intros Hx Hinf.
  rewrite (emits_emitted _ _ (dumpFloat_emits recorder x Hx)), Hinf.
  unfold Float64bits.
  rewrite (emits_emitted _ _ (dumpInt_emits recorder x Hx)). reflexivity.
Qed.

(** C2, where the code fails: on -Inf, [dumpFloat] writes [Finf] and [Fneg]
    and then goes on to write the ops of [dumpInt] on the bits of -Inf and
    [Itof]: 79 ops and not two. *)
Theorem dumpFloat_neg_inf_falls_through :
  IsNaN neg_inf = false /\ IsInf neg_inf 1 = false /\ IsInf neg_inf (-1) = true /\
  emitted (dumpFloat recorder neg_inf)
  = [Finf; Fneg] ++ emitted (dumpInt recorder (Float64bits neg_inf)) ++ [Itof] /\
  length (emitted (dumpFloat recorder neg_inf)) = 79%nat /\
  emitted (dumpFloat recorder neg_inf) <> [Finf; Fneg].
Proof.
  repeat split; try (vm_compute; reflexivity).
  vm_compute. discriminate.
Qed.

(** ** Induction on values *)

Lemma Value_nested_ind (P : Value -> Prop) :
  (forall i, P (NewIntValue i)) ->
  (forall u, P (NewUintValue u)) ->
  (forall x, P (NewFloatValue x)) ->
  (forall s, P (NewStringValue s)) ->
  (forall obj, Forall (fun kv => P (snd kv)) obj -> P (NewObjectValue obj)) ->
  (forall arr, Forall P arr -> P (NewArrayValue arr)) ->
  (forall b, P (NewBoolValue b)) ->
  P NewNilValue ->
  (forall k, P (UnknownKindValue k)) ->
  forall v, P v.
Proof.
  intros Hi Hu Hf Hs Ho Ha Hb Hn Hk.
  fix IH 1. intros [i|u|x|s|obj|arr|b| |k].
  - apply Hi.
  - apply Hu.
  - apply Hf.
  - apply Hs.
  - apply Ho. induction obj as [|[k v] rest IHrest]; constructor.
    + apply IH.
    + exact IHrest.
  - apply Ha. induction arr as [|v rest IHrest]; constructor.
    + apply IH.
    + exact IHrest.
  - apply Hb.
  - apply Hn.
  - apply Hk.
Qed.

Lemma defined_kinds_object (obj : list (list byte * Value)) :
  defined_kinds (NewObjectValue obj) = true ->
  Forall (fun kv => defined_kinds (snd kv) = true) obj.
Proof.
  induction obj as [|[k v] rest IH]; intros H; constructor.
  - cbn in H. apply andb_true_iff in H. apply H.
  - apply IH. cbn in H |- *. apply andb_true_iff in H. apply H.
Qed.

Lemma defined_kinds_array (arr : list Value) :
  defined_kinds (NewArrayValue arr) = true ->
  Forall (fun v => defined_kinds v = true) arr.
Proof.
  induction arr as [|v rest IH]; intros H; constructor.
  - cbn in H. apply andb_true_iff in H. apply H.
  - apply IH. cbn in H |- *. apply andb_true_iff in H. apply H.
Qed.

(** ** Every dumper method is built from [ret], [emit] and [andThen] *)

Section Closure.

Context {W E : Type} (Write : Op -> W -> option E * W).
Variable Q : M W E -> Prop.
Hypothesis Q_ret : Q ret.
Hypothesis Q_emit : forall op, Q (emit Write op).
Hypothesis Q_andThen : forall a b, Q a -> Q b -> Q (andThen a b).

Lemma closed_dumpInt (n : uint64) : Q (dumpInt Write n).
Proof.
  unfold dumpInt. apply Q_andThen; [apply Q_emit|].
  destruct (n =? 0); [apply Q_ret|]. cbv zeta.
  apply Q_andThen; [apply Q_emit|].
  induction (Z.to_nat (63 - LeadingZeros64 n)) as [|k IH]; [apply Q_ret|].
  cbn [dumpInt_loop]. apply Q_andThen; [apply Q_emit|].
  apply Q_andThen; [|exact IH].
  destruct (negb _); [apply Q_emit|apply Q_ret].
Qed.

Lemma closed_dumpUint (n : uint64) : Q (dumpUint Write n).
Proof. apply Q_andThen; [apply closed_dumpInt|apply Q_emit]. Qed.

Lemma closed_dumpFloat (x : float64) : Q (dumpFloat Write x).
Proof.
  unfold dumpFloat.
  destruct (IsNaN x); [apply Q_emit|].
  destruct (IsInf x 1); [apply Q_emit|].
  apply Q_andThen.
  - destruct (IsInf x (-1)); [|apply Q_ret].
    apply Q_andThen; apply Q_emit.
  - apply Q_andThen; [apply closed_dumpInt|apply Q_emit].
Qed.

Lemma closed_dumpString (s : list byte) : Q (dumpString Write s).
Proof.
  apply Q_andThen; [apply Q_emit|].
  induction s as [|c s IH]; [apply Q_ret|].
  cbn [dumpString_loop]. apply Q_andThen; [apply closed_dumpInt|].
  apply Q_andThen; [apply Q_emit|exact IH].
Qed.

Lemma closed_dumpBool (b : bool) : Q (dumpBool Write b).
Proof.
  apply Q_andThen; [apply Q_emit|]. destruct b; [apply Q_emit|apply Q_ret].
Qed.

(** [Dump] too, on a value of defined kinds, or on any value when [Q]
    admits a panic. *)
Lemma closed_Dump (v : Value) :
  (forall k, Q (panic k)) \/ defined_kinds v = true -> Q (Dump Write v).
Proof.
  induction v as [i|u|x|s|obj IH|arr IH|b| |k] using Value_nested_ind; intros Hv.
  - apply closed_dumpInt.
  - apply closed_dumpUint.
  - apply closed_dumpFloat.
  - apply closed_dumpString.
  - cbn [Dump]. unfold dumpObject. apply Q_andThen; [apply Q_emit|].
    assert (Hdef : (forall k, Q (panic k)) \/
                   Forall (fun kv => defined_kinds (snd kv) = true) obj).
    { destruct Hv as [Hp|Hd]; [left; exact Hp|right].
      apply defined_kinds_object, Hd. }
    clear Hv. induction IH as [|[k v] rest Hv _ IHrest]; [apply Q_ret|].
    cbn [dumpObject_range]. apply Q_andThen; [apply closed_dumpString|].
    apply Q_andThen.
    + apply Hv. destruct Hdef as [Hp|Hd]; [left; exact Hp|right].
      inversion Hd; assumption.
    + apply Q_andThen; [apply Q_emit|]. apply IHrest.
      destruct Hdef as [Hp|Hd]; [left; exact Hp|right].
      inversion Hd; assumption.
  - cbn [Dump]. unfold dumpArray. apply Q_andThen; [apply Q_emit|].
    assert (Hdef : (forall k, Q (panic k)) \/
                   Forall (fun v => defined_kinds v = true) arr).
    { destruct Hv as [Hp|Hd]; [left; exact Hp|right].
      apply defined_kinds_array, Hd. }
    clear Hv. induction IH as [|v rest Hv _ IHrest]; [apply Q_ret|].
    cbn [dumpArray_range]. apply Q_andThen.
    + apply Hv. destruct Hdef as [Hp|Hd]; [left; exact Hp|right].
      inversion Hd; assumption.
    + apply Q_andThen; [apply Q_emit|]. apply IHrest.
      destruct Hdef as [Hp|Hd]; [left; exact Hp|right].
      inversion Hd; assumption.
  - apply closed_dumpBool.
  - apply Q_emit.
  - destruct Hv as [Hp|Hd]; [apply Hp|discriminate].
Qed.

End Closure.

(** ** [Dump] does not panic on values of defined kinds *)

Lemma never_panics_andThen {W E : Type} (a b : M W E) :
  never_panics a -> never_panics b -> never_panics (andThen a b).
Proof.
  intros Ha Hb w. unfold andThen.
  destruct (Ha w) as [H|[e H]]; destruct (a w) as [[|e'|k] w']; cbn in H;
    try discriminate.
  - apply Hb.
  - right. exists e'. reflexivity.
Qed.

Lemma never_panics_emit {W E : Type} (Write : Op -> W -> option E * W) (op : Op) :
  never_panics (emit Write op).
Proof.
  intros w. unfold emit. destruct (Write op w) as [[e|] w']; cbn.
  - right. exists e. reflexivity.
  - left. reflexivity.
Qed.

(** The panic branch is there: a value of an unknown kind reaches it. *)
Lemma Dump_unknown_kind_panics {W E : Type} (Write : Op -> W -> option E * W)
  (k : Z) (w : W) :
  Dump Write (UnknownKindValue k) w = (Panicked k, w).
Proof. reflexivity. Qed.

(** C10.  When the value given to [Dump], and every value nested in its
    objects and arrays, has one of the eight defined kinds, [Dump] does not
    panic: whatever the sink and its state, it returns [nil] or an error of
    the sink. *)
Theorem Dump_defined_kinds_never_panics
  {W E : Type} (Write : Op -> W -> option E * W) (v : Value) (w : W) :
  defined_kinds v = true ->
  fst (Dump Write v w) = Done \/ exists e, fst (Dump Write v w) = Failed e.
Proof.
  intros Hv. revert w. change (never_panics (Dump Write v)).
  apply closed_Dump.
  - intros w. left. reflexivity.
  - apply never_panics_emit.
  - apply never_panics_andThen.
  - right. exact Hv.
Qed.

Lemma Dump_defined_kinds_never_panics_witness :
  defined_kinds (NewArrayValue [NewBoolValue true; NewNilValue]) = true /\
  (fst (Dump (refuses_write 3 7) (NewArrayValue [NewBoolValue true; NewNilValue]) 0%nat)
   = Done \/
   exists e,
     fst (Dump (refuses_write 3 7) (NewArrayValue [NewBoolValue true; NewNilValue]) 0%nat)
     = Failed e).
Proof.
  split; [reflexivity|].
  apply (Dump_defined_kinds_never_panics (refuses_write 3 7)
           (NewArrayValue [NewBoolValue true; NewNilValue]) 0%nat).
  reflexivity.
Defined.

(** ** A refused write ends [Dump] *)

Lemma all_accepted_app {E : Type} (a b : list (Op * option E)) :
  all_accepted a -> all_accepted b -> all_accepted (a ++ b).
Proof. intros Ha Hb. apply Forall_app. split; assumption. Qed.

Lemma disciplined_ret {W E : Type} :
  @disciplined W E ret.
Proof.
  intros w l. exists []. cbn. split; [now rewrite app_nil_r|constructor].
Qed.

Lemma disciplined_panic {W E : Type} (k : Z) :
  @disciplined W E (panic k).
Proof.
  intros w l. exists []. cbn. split; [now rewrite app_nil_r|constructor].
Qed.

Lemma disciplined_emit {W E : Type} (Write : Op -> W -> option E * W) (op : Op) :
  disciplined (emit (logged Write) op).
Proof.
  intros w l. unfold emit, logged. cbn [fst snd].
  destruct (Write op w) as [[e|] w'] eqn:Hw; cbn [fst snd].
  - exists [(op, Some e)]. split; [reflexivity|].
    exists [], op. split; [reflexivity|constructor].
  - exists [(op, None)]. split; [reflexivity|].
    constructor; [reflexivity|constructor].
Qed.

Lemma disciplined_andThen {W E : Type} (a b : M (W * list (Op * option E)) E) :
  disciplined a -> disciplined b -> disciplined (andThen a b).
Proof.
  intros Ha Hb w l. unfold andThen.
  destruct (Ha w l) as (s1 & Hl1 & Hfit1).
  destruct (a (w, l)) as [out1 [w1 l1]]. cbn [fst snd] in Hl1, Hfit1. subst l1.
  destruct out1 as [|e|k].
  - destruct (Hb w1 (l ++ s1)) as (s2 & Hl2 & Hfit2).
    exists (s1 ++ s2). rewrite app_assoc. split; [exact Hl2|].
    destruct (fst (b (w1, l ++ s1))) as [|e|k]; cbn in Hfit1, Hfit2 |- *.
    + apply all_accepted_app; assumption.
    + destruct Hfit2 as (s0 & op & -> & Hs0).
      exists (s1 ++ s0), op. rewrite app_assoc. split; [reflexivity|].
      apply all_accepted_app; assumption.
    + apply all_accepted_app; assumption.
  - exists s1. split; [reflexivity|exact Hfit1].
  - exists s1. split; [reflexivity|exact Hfit1].
Qed.

Lemma Dump_disciplined {W E : Type} (Write : Op -> W -> option E * W) (v : Value) :
  disciplined (Dump (logged Write) v).
Proof.
  apply closed_Dump.
  - apply disciplined_ret.
  - apply disciplined_emit.
  - apply disciplined_andThen.
  - left. apply disciplined_panic.
Qed.

(** In a log whose calls were all accepted but the last, a refused call is
    the last one. *)
Lemma refused_call_is_last {E : Type} (s0 pre post : list (Op * option E))
  (last call : Op * option E) :
  all_accepted s0 -> snd call <> None ->
  s0 ++ [last] = pre ++ call :: post ->
  post = [] /\ call = last.
Proof.
  intros Hs0 Hcall. revert pre.
  induction Hs0 as [|c s0 Hc Hs0 IH]; intros pre Heq.
  - destruct pre as [|p pre]; cbn in Heq.
    + inversion Heq. split; reflexivity.
    + inversion Heq as [[Hp Hrest]]. destruct pre; discriminate.
  - destruct pre as [|p pre]; cbn in Heq.
    + inversion Heq as [[Hp Hrest]]. subst c. contradiction.
    + inversion Heq as [[Hp Hrest]]. apply (IH pre). exact Hrest.
Qed.

(** C5.  Run [Dump v] on any sink, with a log of the calls of [Write].  If
    a write was refused with the error [e], that call is the last of the
    log (nothing is written after it) and [Dump] returns [e] itself; and an
    error that [Dump] returns is the one the last call of the log was
    refused with, every earlier call having been accepted. *)
Theorem Dump_stops_at_refused_write
  {W E : Type} (Write : Op -> W -> option E * W) (v : Value) (w : W)
  (out : result E) (w' : W) (log : list (Op * option E)) :
  Dump (logged Write) v (w, []) = (out, (w', log)) ->
  (forall pre op e post,
      log = pre ++ (op, Some e) :: post -> post = [] /\ out = Failed e) /\
  (forall e, out = Failed e ->
             exists pre op, log = pre ++ [(op, Some e)] /\ all_accepted pre).
Proof.
  intros Hrun.
  destruct (Dump_disciplined Write v w []) as (s & Hlog & Hfit).
  rewrite Hrun in Hlog, Hfit. cbn [fst snd app] in Hlog, Hfit. subst s.
  split.
  - intros pre op e post Heq.
    destruct out as [|e'|k]; cbn in Hfit.
    + exfalso. rewrite Heq in Hfit. apply Forall_app in Hfit.
      destruct Hfit as [_ Hfit]. inversion Hfit as [|? ? Hc _]. discriminate.
    + destruct Hfit as (s0 & op' & Hs & Hs0). rewrite Hs in Heq.
      destruct (refused_call_is_last s0 pre post (op', Some e') (op, Some e) Hs0)
        as [Hpost Hcall]; [discriminate|exact Heq|].
      split; [exact Hpost|]. inversion Hcall. reflexivity.
    + exfalso. rewrite Heq in Hfit. apply Forall_app in Hfit.
      destruct Hfit as [_ Hfit]. inversion Hfit as [|? ? Hc _]. discriminate.
  - intros e ->. cbn in Hfit. destruct Hfit as (s0 & op & Hs & Hs0).
    exists s0, op. split; assumption.
Qed.

Lemma Dump_stops_at_refused_write_witness :
  Dump (logged (refuses_write 1 7)) (NewBoolValue true) (0%nat, [])
  = (Failed 7%nat, (2%nat, [(Bnew, None); (Bneg, Some 7%nat)])) /\
  (forall pre op e post,
      [(Bnew, None); (Bneg, Some 7%nat)] = pre ++ (op, Some e) :: post ->
      post = [] /\ Failed 7%nat = Failed e) /\
  (forall e, Failed 7%nat = Failed e ->
             exists pre op, [(Bnew, None); (Bneg, Some 7%nat)] = pre ++ [(op, Some e)]
                            /\ all_accepted pre).
Proof.
  split; [reflexivity|].
  apply (Dump_stops_at_refused_write (refuses_write 1 7) (NewBoolValue true) 0%nat
           (Failed 7%nat) 2%nat [(Bnew, None); (Bneg, Some 7%nat)]).
  reflexivity.
Defined.

(** ** The stack machine *)

(** The model of [Feed] passes the tests of [execution_test.go] that pin
    down an effect or an error. *)
Lemma Feed_passes_the_tests :
  (* TestFeedMultiExecutesOpsSequentially *)
  FeedMulti [Inew; Iinc; Iinc; Iinc] NewVM = (None, [NewIntValue 3]) /\
  (* TestFeedMultiDoNothingWhenOpsIsEmpty *)
  sp (snd (FeedMulti [] NewVM)) = -1 /\
  (* TestFeedIshlShiftsTheTopBy1 *)
  Feed Ishl [NewIntValue 123] = (None, [NewIntValue 246]) /\
  (* TestFeedIaddAddsTwoIntegers *)
  Feed Iadd [NewIntValue 2; NewIntValue 1] = (None, [NewIntValue 3]) /\
  (* TestFeedInegNegatesTheTop *)
  Feed Ineg [NewIntValue 1] = (None, [NewIntValue (-1)]) /\
  (* TestFeedIshtShiftsArg2ToLeftByArg1WhenArg1IsPositive, ...IsNegative *)
  Feed Isht [NewIntValue 4; NewIntValue 0xabcd0] = (None, [NewIntValue 0xabcd00]) /\
  Feed Isht [NewIntValue (-4); NewIntValue 0xabcd0] = (None, [NewIntValue 0xabcd]) /\
  (* TestFeedSaddAddsACharToString *)
  Feed Sadd [NewIntValue 0x21; NewStringValue [x68; x65; x6c; x6c; x6f]]
  = (None, [NewStringValue [x68; x65; x6c; x6c; x6f; x21]]) /\
  (* TestFeedOaddAddsAKeyValuePairToAnObject *)
  Feed Oadd [NewIntValue 2021; NewStringValue [x79; x65; x61; x72];
             NewObjectValue [([x68; x65; x6c; x6c; x6f],
                              NewStringValue [x77; x6f; x72; x6c; x64])]]
  = (None, [NewObjectValue [([x68; x65; x6c; x6c; x6f],
                             NewStringValue [x77; x6f; x72; x6c; x64]);
                            ([x79; x65; x61; x72], NewIntValue 2021)]]) /\
  (* TestFeedBnegNegatesTheTop *)
  Feed Bneg [NewBoolValue true] = (None, [NewBoolValue false]) /\
  (* TestFeedIincFailsWhenTypeMismatch, TestFeedIincFailsIfStackIsEmpty *)
  fst (Feed Iinc [NewNilValue]) = Some ErrTypeMismatch /\
  fst (Feed Iinc NewVM) = Some ErrStackEmpty /\
  (* TestFeedIaddFailsWhenArg1IsNotInteger, ...Arg2IsNotInteger *)
  fst (Feed Iadd [NewNilValue; NewIntValue 1]) = Some ErrTypeMismatch /\
  fst (Feed Iadd [NewIntValue 1; NewNilValue]) = Some ErrTypeMismatch /\
  (* TestFeedSaddFailsWhenArg1IsNotInteger, ...Arg2IsNotString *)
  fst (Feed Sadd [NewNilValue; NewStringValue [x68]]) = Some ErrTypeMismatch /\
  fst (Feed Sadd [NewIntValue 0x21; NewNilValue]) = Some ErrTypeMismatch /\
  (* TestFeedOaddFailsWhenArg2IsNotString, ...Arg3IsNotString *)
  fst (Feed Oadd [NewIntValue 2021; NewNilValue; NewObjectValue []])
  = Some ErrTypeMismatch /\
  fst (Feed Oadd [NewIntValue 2021; NewStringValue [x79]; NewNilValue])
  = Some ErrTypeMismatch.
Proof. repeat split; vm_compute; reflexivity. Qed.

(** C6.  For every op and every stack that holds fewer elements than the op
    has operands, [Feed] fails with [ErrStackEmpty], whatever the kinds of
    the elements that are there; it does not fail with [ErrTypeMismatch],
    and the stack is left as it was. *)
Theorem Feed_too_few_operands (op : Op) (vm : VM) :
  (length vm < operands op)%nat ->
  Feed op vm = (Some ErrStackEmpty, vm) /\
  fst (Feed op vm) <> Some ErrTypeMismatch.
Proof.
  intros Hlen.
  assert (H : Feed op vm = (Some ErrStackEmpty, vm)).
  { destruct op; cbn [operands] in Hlen;
      destruct vm as [|a [|b [|c rest]]]; cbn [length] in Hlen;
      try lia; reflexivity. }
  split; [exact H|]. rewrite H. discriminate.
Qed.

(** [Oadd] on a stack that holds only a string and an int
    (TestFeedOaddFailsWhenStackIsInsufficient2), and [Iadd] on a stack that
    holds one int (TestFeedIaddFailsWhenStackIsInsufficiient). *)
Lemma Feed_too_few_operands_witness :
  (Feed Oadd [NewIntValue 1; NewStringValue [x68; x6f; x67; x65]]
   = (Some ErrStackEmpty, [NewIntValue 1; NewStringValue [x68; x6f; x67; x65]]) /\
   fst (Feed Oadd [NewIntValue 1; NewStringValue [x68; x6f; x67; x65]])
   <> Some ErrTypeMismatch) /\
  (Feed Iadd [NewIntValue 1] = (Some ErrStackEmpty, [NewIntValue 1]) /\
   fst (Feed Iadd [NewIntValue 1]) <> Some ErrTypeMismatch).
Proof.
  split.
  - apply (Feed_too_few_operands Oadd
             [NewIntValue 1; NewStringValue [x68; x6f; x67; x65]]).
    cbn. lia.
  - apply (Feed_too_few_operands Iadd [NewIntValue 1]). cbn. lia.
Defined.

(** An op that has all its operands and finds one of the wrong kind fails
    with [ErrTypeMismatch]: both errors of the model can be met. *)
Lemma Feed_wrong_kind :
  Feed Oadd [NewIntValue 1; NewStringValue [x68]; NewNilValue]
  = (Some ErrTypeMismatch, [NewIntValue 1; NewStringValue [x68]; NewNilValue]).
Proof. reflexivity. Qed.

(** ** From the ops back to the value *)

Lemma FeedMulti_app (a b : list Op) (vm : VM) :
  FeedMulti (a ++ b) vm =
  match FeedMulti a vm with
  | (None, vm') => FeedMulti b vm'
  | r => r
  end.
Proof.
  revert vm. induction a as [|op a IH]; intros vm; [reflexivity|].
  cbn [app FeedMulti]. destruct (Feed op vm) as [[e|] vm']; [reflexivity|apply IH].
Qed.

Lemma int64_of_Z_mod (z : Z) : int64_of_Z z mod 2 ^ 64 = z mod 2 ^ 64.
Proof.
  unfold int64_of_Z. rewrite Zminus_mod_idemp_l. f_equal. lia.
Qed.

Lemma int64_of_Z_congr (x y : Z) :
  x mod 2 ^ 64 = y mod 2 ^ 64 -> int64_of_Z x = int64_of_Z y.
Proof.
  intros H. unfold int64_of_Z.
  rewrite <- (Zplus_mod_idemp_l x), <- (Zplus_mod_idemp_l y), H. reflexivity.
Qed.

Lemma int64_of_Z_small (z : Z) : - 2 ^ 63 <= z < 2 ^ 63 -> int64_of_Z z = z.
Proof. intros H. unfold int64_of_Z. rewrite Z.mod_small; lia. Qed.

Lemma int64_of_Z_double (a : Z) : int64_of_Z (int64_of_Z a * 2) = int64_of_Z (a * 2).
Proof.
  apply int64_of_Z_congr.
  rewrite Z.mul_mod, int64_of_Z_mod, <- Z.mul_mod by lia. reflexivity.
Qed.

Lemma int64_of_Z_succ (a : Z) : int64_of_Z (int64_of_Z a + 1) = int64_of_Z (a + 1).
Proof.
  apply int64_of_Z_congr.
  rewrite Z.add_mod, int64_of_Z_mod, <- Z.add_mod by lia. reflexivity.
Qed.

Lemma uint64_of_int64_of_Z (u : Z) :
  0 <= u < 2 ^ 64 -> uint64_of_int64 (int64_of_Z u) = u.
Proof.
  intros H. unfold uint64_of_int64. rewrite int64_of_Z_mod. apply Z.mod_small, H.
Qed.

Lemma int64_of_uint64_of_int64 (i : Z) :
  - 2 ^ 63 <= i < 2 ^ 63 -> int64_of_Z (uint64_of_int64 i) = i.
Proof.
  intros H. rewrite <- (int64_of_Z_small i H) at 2.
  apply int64_of_Z_congr. unfold uint64_of_int64. apply Z.mod_mod. lia.
Qed.

Lemma mod_pow2_succ (n : Z) (k : nat) :
  n mod 2 ^ Z.of_nat (S k) =
  Z.b2z (Z.testbit n (Z.of_nat k)) * 2 ^ Z.of_nat k + n mod 2 ^ Z.of_nat k.
Proof.
  replace (Z.of_nat (S k)) with (Z.of_nat k + 1) by lia.
  assert (0 < 2 ^ Z.of_nat k) by (apply Z.pow_pos_nonneg; lia).
  rewrite Z.pow_add_r, Z.pow_1_r by lia.
  rewrite Z.rem_mul_r by lia.
  rewrite Z.testbit_spec' by lia. ring.
Qed.

(** The loop of [dumpInt] shifts the remaining low bits of [n] into the
    accumulator. *)
Lemma shift_and_set_builds (n : Z) (k : nat) (a : Z) (st : VM) :
  FeedMulti (shift_and_set n k) (NewIntValue (int64_of_Z a) :: st)
  = (None,
     NewIntValue (int64_of_Z (a * 2 ^ Z.of_nat k + n mod 2 ^ Z.of_nat k)) :: st).
Proof.
  revert a. induction k as [|k IH]; intros a.
  - cbn [shift_and_set flat_map rev seq FeedMulti]. do 4 f_equal.
    change (2 ^ Z.of_nat 0) with 1. rewrite Z.mod_1_r. lia.
  - rewrite shift_and_set_S, mod_pow2_succ.
    replace (2 ^ Z.of_nat (S k)) with (2 * 2 ^ Z.of_nat k)
      by (replace (Z.of_nat (S k)) with (Z.succ (Z.of_nat k)) by lia;
          rewrite Z.pow_succ_r by lia; reflexivity).
    cbn [app FeedMulti Feed]. rewrite int64_of_Z_double.
    destruct (Z.testbit n (Z.of_nat k)); cbn [app FeedMulti Feed Z.b2z].
    + rewrite int64_of_Z_succ, IH. do 4 f_equal. lia.
    + rewrite IH. do 4 f_equal. lia.
Qed.

(** The ops of [dumpInt n] push [n] as an [int64]. *)
Lemma msb_first_ops_builds (n : Z) (st : VM) :
  0 <= n < 2 ^ 64 ->
  FeedMulti (msb_first_ops n) st = (None, NewIntValue (int64_of_Z n) :: st).
Proof.
  intros Hn. unfold msb_first_ops.
  destruct (Z.eqb_spec n 0) as [->|Hnz]; [reflexivity|].
  cbn [FeedMulti Feed].
  change (int64_of_Z (0 + 1)) with (int64_of_Z 1).
  rewrite shift_and_set_builds. do 4 f_equal.
  unfold highest_set_bit.
  pose proof (Z.log2_nonneg n) as Hl.
  rewrite Z2Nat.id by exact Hl.
  pose proof (Z.log2_spec n ltac:(lia)) as Hs.
  rewrite Z.pow_succ_r in Hs by exact Hl.
  assert (n mod 2 ^ Z.log2 n = n - 2 ^ Z.log2 n).
  { symmetry. apply Z.mod_unique_pos with (q := 1); lia. }
  lia.
Qed.

Lemma byte_of_uint64_of_byte (c : byte) : byte_of_Z (uint64_of_byte c) = c.
Proof.
  pose proof (uint64_of_byte_range c) as Hc.
  unfold byte_of_Z. rewrite Z.mod_small by lia.
  unfold uint64_of_byte. rewrite N2Z.id, Byte.of_to_N. reflexivity.
Qed.

Lemma string_loop_builds (s acc : list byte) (st : VM) :
  FeedMulti (flat_map (fun c => msb_first_ops (uint64_of_byte c) ++ [Sadd]) s)
            (NewStringValue acc :: st)
  = (None, NewStringValue (acc ++ s) :: st).
Proof.
  revert acc. induction s as [|c s IH]; intros acc.
  - cbn. now rewrite app_nil_r.
  - pose proof (uint64_of_byte_range c) as Hc.
    cbn [flat_map]. rewrite !FeedMulti_app.
    rewrite msb_first_ops_builds by lia.
    cbn [FeedMulti Feed]. rewrite int64_of_Z_small by lia.
    rewrite byte_of_uint64_of_byte, IH, <- app_assoc. reflexivity.
Qed.

Lemma string_ops_builds (s : list byte) (st : VM) :
  FeedMulti (string_ops s) st = (None, NewStringValue s :: st).
Proof.
  unfold string_ops. cbn [FeedMulti Feed]. apply string_loop_builds.
Qed.

(** *** Floats on the machine *)

Lemma IsInf_pos_inf (x : float64) :
  0 <= x < 2 ^ 64 -> IsInf x 1 = true -> x = pos_inf.
Proof.
  intros Hx H. unfold IsInf, f_exponent, f_fraction, f_sign in H.
  rewrite !andb_true_iff, orb_true_iff, !andb_true_iff in H.
  destruct H as [[He Hf] [[_ Hs]|[Hs _]]]; [|discriminate].
  apply Z.eqb_eq in He, Hf. apply negb_true_iff in Hs.
  change 2047 with (Z.ones 11) in He at 1.
  change (2 ^ 52 - 1) with (Z.ones 52) in Hf.
  rewrite Z.land_ones, Z.shiftr_div_pow2 in He by lia.
  rewrite Z.land_ones in Hf by lia.
  assert (Hb : (x / 2 ^ 63) mod 2 = 0)
    by (rewrite <- Z.testbit_spec', Hs by lia; reflexivity).
  assert (Hq : 0 <= x / 2 ^ 63 < 2)
    by (split; [apply Z.div_pos; lia|apply Z.div_lt_upper_bound; lia]).
  assert (Hlt : x < 2 ^ 63).
  { assert (x / 2 ^ 63 = 0) as H0.
    { destruct (Z.eq_dec (x / 2 ^ 63) 0) as [|Hne]; [assumption|].
      replace (x / 2 ^ 63) with 1 in Hb by lia. discriminate. }
    apply Z.div_small_iff in H0; lia. }
  pose proof (Z.div_mod x (2 ^ 52) ltac:(lia)) as Hdm.
  assert (Hq52 : 0 <= x / 2 ^ 52 < 2 ^ 11)
    by (split; [apply Z.div_pos; lia|apply Z.div_lt_upper_bound; lia]).
  rewrite Z.mod_small in He by exact Hq52.
  unfold pos_inf. lia.
Qed.

(** *** What the recording sink holds *)

Lemma emitted_of_emits (m : M (list Op) Empty_set) (ops : list Op) :
  emits recorder m ops -> recorded m /\ emitted m = ops.
Proof.
  intros H. pose proof (emits_emitted m ops H) as Heq.
  split; [|exact Heq]. unfold recorded. rewrite Heq. exact H.
Qed.

Lemma recorded_andThen (a b : M (list Op) Empty_set) :
  recorded a -> recorded b ->
  recorded (andThen a b) /\ emitted (andThen a b) = emitted a ++ emitted b.
Proof.
  intros Ha Hb. apply emitted_of_emits, emits_andThen; assumption.
Qed.

Lemma recorded_emit (op : Op) :
  recorded (emit recorder op) /\ emitted (emit recorder op) = [op].
Proof. apply emitted_of_emits, emits_emit. Qed.

Lemma Dump_recorded (v : Value) :
  defined_kinds v = true -> recorded (Dump recorder v).
Proof.
  intros Hv. apply closed_Dump.
  - apply (emitted_of_emits _ _ (emits_ret recorder)).
  - intros op. apply recorded_emit.
  - intros a b Ha Hb. apply recorded_andThen; assumption.
  - right. exact Hv.
Qed.

Lemma dumpString_recorded (s : list byte) :
  recorded (dumpString recorder s) /\ emitted (dumpString recorder s) = string_ops s.
Proof. apply emitted_of_emits, dumpString_emits. Qed.

Lemma dumpObject_range_recorded (rest : list (list byte * Value)) :
  Forall (fun kv => defined_kinds (snd kv) = true) rest ->
  recorded (dumpObject_range recorder (Dump recorder) rest).
Proof.
  induction 1 as [|[k v] rest Hv _ IH].
  - apply (emitted_of_emits _ _ (emits_ret recorder)).
  - cbn [dumpObject_range snd] in *.
    apply recorded_andThen; [apply dumpString_recorded|].
    apply recorded_andThen; [apply Dump_recorded, Hv|].
    apply recorded_andThen; [apply recorded_emit|exact IH].
Qed.

Lemma dumpArray_range_recorded (rest : list Value) :
  Forall (fun v => defined_kinds v = true) rest ->
  recorded (dumpArray_range recorder (Dump recorder) rest).
Proof.
  induction 1 as [|v rest Hv _ IH].
  - apply (emitted_of_emits _ _ (emits_ret recorder)).
  - cbn [dumpArray_range].
    apply recorded_andThen; [apply Dump_recorded, Hv|].
    apply recorded_andThen; [apply recorded_emit|exact IH].
Qed.

Lemma emitted_dumpObject_range_cons (k : list byte) (v : Value)
  (rest : list (list byte * Value)) :
  defined_kinds v = true ->
  Forall (fun kv => defined_kinds (snd kv) = true) rest ->
  emitted (dumpObject_range recorder (Dump recorder) ((k, v) :: rest))
  = string_ops k ++ emitted (Dump recorder v) ++ [Oadd]
    ++ emitted (dumpObject_range recorder (Dump recorder) rest).
Proof.
  intros Hv Hrest. cbn [dumpObject_range].
  pose proof (dumpObject_range_recorded rest Hrest) as Hr.
  pose proof (Dump_recorded v Hv) as Hd.
  destruct (recorded_andThen _ _ (proj1 (recorded_emit Oadd)) Hr) as [H1 E1].
  destruct (recorded_andThen _ _ Hd H1) as [H2 E2].
  destruct (recorded_andThen _ _ (proj1 (dumpString_recorded k)) H2) as [_ E3].
  rewrite E3, E2, E1, (proj2 (dumpString_recorded k)), (proj2 (recorded_emit Oadd)).
  reflexivity.
Qed.

Lemma emitted_dumpArray_range_cons (v : Value) (rest : list Value) :
  defined_kinds v = true ->
  Forall (fun v => defined_kinds v = true) rest ->
  emitted (dumpArray_range recorder (Dump recorder) (v :: rest))
  = emitted (Dump recorder v) ++ [Aadd]
    ++ emitted (dumpArray_range recorder (Dump recorder) rest).
Proof.
  intros Hv Hrest. cbn [dumpArray_range].
  pose proof (dumpArray_range_recorded rest Hrest) as Hr.
  pose proof (Dump_recorded v Hv) as Hd.
  destruct (recorded_andThen _ _ (proj1 (recorded_emit Aadd)) Hr) as [H1 E1].
  destruct (recorded_andThen _ _ Hd H1) as [_ E2].
  rewrite E2, E1, (proj2 (recorded_emit Aadd)). reflexivity.
Qed.

(** *** Maps *)

Lemma bytes_eqb_eq (a b : list byte) : bytes_eqb a b = true <-> a = b.
Proof.
  unfold bytes_eqb. destruct (list_eq_dec byte_eq_dec a b); split; congruence.
Qed.

Lemma existsb_bytes_eqb (k : list byte) (ks : list (list byte)) :
  existsb (bytes_eqb k) ks = true <-> In k ks.
Proof.
  rewrite existsb_exists. split.
  - intros (k' & Hin & Heq). apply bytes_eqb_eq in Heq. now subst.
  - intros Hin. exists k. split; [exact Hin|now apply bytes_eqb_eq].
Qed.

Lemma unique_keys_NoDup (ks : list (list byte)) :
  unique_keys ks = true <-> NoDup ks.
Proof.
  induction ks as [|k ks IH]; cbn [unique_keys].
  - split; [constructor|reflexivity].
  - rewrite andb_true_iff, negb_true_iff, IH. split.
    + intros [Hk Hks]. constructor; [|exact Hks].
      intros Hin. apply existsb_bytes_eqb in Hin. congruence.
    + intros Hnd. inversion Hnd as [|? ? Hk Hks]. split; [|exact Hks].
      destruct (existsb (bytes_eqb k) ks) eqn:He; [|reflexivity].
      apply existsb_bytes_eqb in He. contradiction.
Qed.

Lemma obj_set_fresh (k : list byte) (x : Value) (o : list (list byte * Value)) :
  ~ In k (map fst o) -> obj_set k x o = o ++ [(k, x)].
Proof.
  induction o as [|[k' x'] o IH]; intros Hk; [reflexivity|].
  cbn [obj_set app]. cbn [map fst In] in Hk.
  destruct (bytes_eqb k k') eqn:He.
  - apply bytes_eqb_eq in He. subst. tauto.
  - rewrite IH by tauto. reflexivity.
Qed.

Lemma obj_get_In (k : list byte) (x : Value) (o : list (list byte * Value)) :
  NoDup (map fst o) -> In (k, x) o -> obj_get k o = Some x.
Proof.
  induction o as [|[k' x'] o IH]; intros Hnd Hin; [destruct Hin|].
  cbn [map fst] in Hnd. apply NoDup_cons_iff in Hnd. destruct Hnd as [Hk' Hnd'].
  cbn [obj_get]. destruct Hin as [Heq|Hin].
  - inversion Heq. subst.
    replace (bytes_eqb k k) with true by (symmetry; now apply bytes_eqb_eq).
    reflexivity.
  - destruct (bytes_eqb k k') eqn:He.
    + apply bytes_eqb_eq in He. subst k'. exfalso. apply Hk'.
      apply (in_map fst) in Hin. exact Hin.
    + apply IH; assumption.
Qed.

(** *** The entries and the elements of a value *)

Lemma well_typed_object (obj : list (list byte * Value)) :
  well_typed (NewObjectValue obj) = true ->
  NoDup (map fst obj) /\ Forall (fun kv => well_typed (snd kv) = true) obj.
Proof.
  cbn [well_typed]. rewrite andb_true_iff, unique_keys_NoDup.
  intros [Hnd H]. split; [exact Hnd|]. clear Hnd.
  induction obj as [|[k v] rest IH]; constructor.
  - apply andb_true_iff in H. apply H.
  - apply IH. apply andb_true_iff in H. apply H.
Qed.

Lemma well_typed_array (arr : list Value) :
  well_typed (NewArrayValue arr) = true ->
  Forall (fun v => well_typed v = true) arr.
Proof.
  induction arr as [|v rest IH]; intros H; constructor.
  - cbn in H. apply andb_true_iff in H. apply H.
  - apply IH. cbn in H |- *. apply andb_true_iff in H. apply H.
Qed.

Lemma no_neg_inf_object (obj : list (list byte * Value)) :
  no_neg_inf (NewObjectValue obj) = true ->
  Forall (fun kv => no_neg_inf (snd kv) = true) obj.
Proof.
  induction obj as [|[k v] rest IH]; intros H; constructor.
  - cbn in H. apply andb_true_iff in H. apply H.
  - apply IH. cbn in H |- *. apply andb_true_iff in H. apply H.
Qed.

Lemma no_neg_inf_array (arr : list Value) :
  no_neg_inf (NewArrayValue arr) = true ->
  Forall (fun v => no_neg_inf v = true) arr.
Proof.
  induction arr as [|v rest IH]; intros H; constructor.
  - cbn in H. apply andb_true_iff in H. apply H.
  - apply IH. cbn in H |- *. apply andb_true_iff in H. apply H.
Qed.

(** *** The loops of [dumpObject] and [dumpArray] on the machine *)

Lemma dumpObject_range_builds (rest : list (list byte * Value)) :
  Forall (fun kv => defined_kinds (snd kv) = true) rest ->
  Forall (fun kv => builds (emitted (Dump recorder (snd kv)))
                           (canonical_NaN (snd kv))) rest ->
  forall acc st,
    NoDup (map fst acc ++ map fst rest) ->
    FeedMulti (emitted (dumpObject_range recorder (Dump recorder) rest))
              (NewObjectValue acc :: st)
    = (None,
       NewObjectValue (acc ++ map (fun kv => (fst kv, canonical_NaN (snd kv))) rest)
       :: st).
Proof.
  intros Hdef Hb. revert Hdef.
  induction Hb as [|[k v] rest Hv _ IH]; intros Hdef acc st Hnd.
  - cbn. now rewrite app_nil_r.
  - inversion Hdef as [|? ? Hdv Hdrest]. subst. cbn [snd fst] in *.
    rewrite emitted_dumpObject_range_cons by assumption.
    rewrite FeedMulti_app, string_ops_builds.
    rewrite FeedMulti_app, Hv.
    cbn [app FeedMulti Feed]. unfold deep_copy.
    cbn [map fst] in Hnd.
    rewrite obj_set_fresh.
    + rewrite IH.
      * cbn [map fst snd]. rewrite <- app_assoc. reflexivity.
      * exact Hdrest.
      * rewrite map_app, <- app_assoc. exact Hnd.
    + apply NoDup_remove_2 in Hnd. intros Hin. apply Hnd.
      apply in_or_app. left. exact Hin.
Qed.

Lemma dumpArray_range_builds (rest : list Value) :
  Forall (fun v => defined_kinds v = true) rest ->
  Forall (fun v => builds (emitted (Dump recorder v)) (canonical_NaN v)) rest ->
  forall acc st,
    FeedMulti (emitted (dumpArray_range recorder (Dump recorder) rest))
              (NewArrayValue acc :: st)
    = (None, NewArrayValue (acc ++ map canonical_NaN rest) :: st).
Proof.
  intros Hdef Hb. revert Hdef.
  induction Hb as [|v rest Hv _ IH]; intros Hdef acc st.
  - cbn. now rewrite app_nil_r.
  - inversion Hdef as [|? ? Hdv Hdrest]. subst.
    rewrite emitted_dumpArray_range_cons by assumption.
    rewrite FeedMulti_app, Hv.
    cbn [app FeedMulti Feed]. unfold deep_copy.
    rewrite IH by exact Hdrest.
    cbn [map]. rewrite <- app_assoc. reflexivity.
Qed.

(** *** The round trip *)

Lemma Dump_builds (v : Value) :
  defined_kinds v = true -> well_typed v = true -> no_neg_inf v = true ->
  builds (emitted (Dump recorder v)) (canonical_NaN v).
Proof.
  induction v as [i|u|x|s|obj IH|arr IH|b| |k] using Value_nested_ind;
    intros Hdef Hwt Hinf st.
  - cbn [Dump canonical_NaN]. apply is_int64_iff in Hwt.
    assert (Hu : 0 <= uint64_of_int64 i < 2 ^ 64)
      by (unfold uint64_of_int64; apply Z.mod_pos_bound; lia).
    rewrite (emits_emitted _ _ (dumpInt_emits recorder _ Hu)).
    rewrite msb_first_ops_builds by exact Hu.
    rewrite int64_of_uint64_of_int64 by exact Hwt. reflexivity.
  - cbn [Dump canonical_NaN]. apply is_uint64_iff in Hwt. unfold dumpUint.
    rewrite (emits_emitted _ _
               (emits_andThen recorder _ _ _ _
                  (dumpInt_emits recorder u Hwt) (emits_emit recorder Itou))).
    rewrite FeedMulti_app, msb_first_ops_builds by exact Hwt.
    cbn [FeedMulti Feed]. rewrite uint64_of_int64_of_Z by exact Hwt. reflexivity.
  - cbn [Dump canonical_NaN well_typed no_neg_inf] in *. apply is_uint64_iff in Hwt.
    rewrite (emits_emitted _ _ (dumpFloat_emits recorder x Hwt)).
    destruct (IsNaN x); [reflexivity|].
    destruct (IsInf x 1) eqn:Hpos.
    + rewrite (IsInf_pos_inf x Hwt Hpos). reflexivity.
    + apply negb_true_iff in Hinf. rewrite Hinf. cbn [app].
      rewrite FeedMulti_app, msb_first_ops_builds by exact Hwt.
      cbn [FeedMulti Feed]. rewrite uint64_of_int64_of_Z by exact Hwt. reflexivity.
  - cbn [Dump canonical_NaN]. rewrite (proj2 (dumpString_recorded s)).
    apply string_ops_builds.
  - pose proof (defined_kinds_object obj Hdef) as Hd.
    destruct (well_typed_object obj Hwt) as [Hnd Hw].
    pose proof (no_neg_inf_object obj Hinf) as Hn.
    cbn [Dump canonical_NaN]. unfold dumpObject.
    destruct (recorded_andThen _ _ (proj1 (recorded_emit Onew))
                (dumpObject_range_recorded obj Hd)) as [_ E].
    rewrite E, (proj2 (recorded_emit Onew)). cbn [app FeedMulti Feed].
    rewrite dumpObject_range_builds; [reflexivity|exact Hd| |exact Hnd].
    clear E Hnd Hdef Hwt Hinf.
    induction IH as [|kv rest Hkv _ IHrest]; constructor.
    + inversion Hd; inversion Hw; inversion Hn; subst. apply Hkv; assumption.
    + inversion Hd; inversion Hw; inversion Hn; subst. apply IHrest; assumption.
  - pose proof (defined_kinds_array arr Hdef) as Hd.
    pose proof (well_typed_array arr Hwt) as Hw.
    pose proof (no_neg_inf_array arr Hinf) as Hn.
    cbn [Dump canonical_NaN]. unfold dumpArray.
    destruct (recorded_andThen _ _ (proj1 (recorded_emit Anew))
                (dumpArray_range_recorded arr Hd)) as [_ E].
    rewrite E, (proj2 (recorded_emit Anew)). cbn [app FeedMulti Feed].
    rewrite dumpArray_range_builds; [reflexivity|exact Hd|].
    clear E Hdef Hwt Hinf.
    induction IH as [|x rest Hx _ IHrest]; constructor.
    + inversion Hd; inversion Hw; inversion Hn; subst. apply Hx; assumption.
    + inversion Hd; inversion Hw; inversion Hn; subst. apply IHrest; assumption.
  - destruct b; reflexivity.
  - reflexivity.
  - discriminate.
Qed.

Lemma canonical_NaN_well_typed (v : Value) :
  well_typed v = true -> well_typed (canonical_NaN v) = true.
Proof.
  induction v as [i|u|x|s|obj IH|arr IH|b| |k] using Value_nested_ind;
    intros Hwt; try exact Hwt.
  - cbn [canonical_NaN well_typed] in *. destruct (IsNaN x); [reflexivity|exact Hwt].
  - destruct (well_typed_object obj Hwt) as [Hnd Hw].
    cbn [canonical_NaN well_typed]. rewrite map_map. cbn [fst].
    apply andb_true_iff. split; [apply unique_keys_NoDup, Hnd|].
    clear Hnd Hwt. induction IH as [|[k v] rest Hv _ IHrest]; [reflexivity|].
    inversion Hw; subst. cbn [map fst snd] in *.
    apply andb_true_iff. split; [apply Hv|apply IHrest]; assumption.
  - pose proof (well_typed_array arr Hwt) as Hw.
    cbn [canonical_NaN well_typed]. clear Hwt.
    induction IH as [|v rest Hv _ IHrest]; [reflexivity|].
    inversion Hw; subst. cbn [map].
    apply andb_true_iff. split; [apply Hv|apply IHrest]; assumption.
Qed.

(** On values whose maps have unique keys, [value_eqb] is reflexive. *)
Lemma value_eqb_refl (v : Value) : well_typed v = true -> value_eqb v v = true.
Proof.
  induction v as [i|u|x|s|obj IH|arr IH|b| |k] using Value_nested_ind;
    intros Hwt; cbn [value_eqb].
  - apply Z.eqb_refl.
  - apply Z.eqb_refl.
  - apply Z.eqb_refl.
  - now apply bytes_eqb_eq.
  - destruct (well_typed_object obj Hwt) as [Hnd Hw].
    rewrite Nat.eqb_refl. cbn [andb].
    assert (Hall : Forall (fun kv => value_eqb (snd kv) (snd kv) = true) obj).
    { clear Hnd Hwt. induction IH as [|kv o Hkv _ IHo]; constructor.
      - inversion Hw; subst. apply Hkv. assumption.
      - inversion Hw; subst. apply IHo. assumption. }
    rewrite Forall_forall in Hall.
    enough (H : forall rest, incl rest obj ->
                (fix entries (kvs : list (list byte * Value)) : bool :=
                   match kvs with
                   | [] => true
                   | (k, x) :: rest =>
                       match obj_get k obj with
                       | Some y => value_eqb x y
                       | None => false
                       end && entries rest
                   end) rest = true)
      by (apply H, incl_refl).
    induction rest as [|[k v] rest IHrest]; intros Hin; [reflexivity|].
    rewrite (obj_get_In k v obj Hnd (Hin _ (or_introl eq_refl))).
    pose proof (Hall (k, v) (Hin _ (or_introl eq_refl))) as Hv.
    cbn [snd] in Hv. rewrite Hv. cbn [andb].
    apply IHrest. intros kv Hkv. apply Hin. right. exact Hkv.
  - pose proof (well_typed_array arr Hwt) as Hw. clear Hwt.
    induction IH as [|v rest Hv _ IHrest]; [reflexivity|].
    inversion Hw; subst. rewrite Hv by assumption. cbn [andb].
    apply IHrest. assumption.
  - destruct b; reflexivity.
  - reflexivity.
  - apply Z.eqb_refl.
Qed.

(** [value_eqb] does not look at the order of the keys of an object, and
    does look at the order of the elements of an array and at every bit of
    a float. *)
Lemma value_eqb_orders :
  value_eqb (NewObjectValue [([x61], NewIntValue 1); ([x62], NewNilValue)])
            (NewObjectValue [([x62], NewNilValue); ([x61], NewIntValue 1)]) = true /\
  value_eqb (NewArrayValue [NewIntValue 1; NewNilValue])
            (NewArrayValue [NewNilValue; NewIntValue 1]) = false /\
  value_eqb (NewFloatValue quiet_NaN) (NewFloatValue go_NaN) = false.
Proof. repeat split; reflexivity. Qed.

(** C1, as the code has it.  For every value [v] of defined kinds that
    holds no -Inf, feeding a fresh machine with the ops that [Dump v] writes
    and calling [Top] gives a value equal to [v] (objects as maps, whatever
    the order of their keys; arrays in order; floats bit for bit), except
    that every NaN of [v] comes back as the one NaN that [Fnan] pushes. *)
Theorem Dump_round_trip (v : Value) :
  defined_kinds v = true -> well_typed v = true -> no_neg_inf v = true ->
  exists r, round_trip v = inr r /\ value_eqb r (canonical_NaN v) = true.
Proof.
  intros Hdef Hwt Hinf. exists (canonical_NaN v). split.
  - unfold round_trip, NewVM. rewrite (Dump_builds v Hdef Hwt Hinf). reflexivity.
  - apply value_eqb_refl, canonical_NaN_well_typed, Hwt.
Qed.

Lemma Dump_round_trip_witness :
  exists r, round_trip sample_value = inr r /\
            value_eqb r (canonical_NaN sample_value) = true.
Proof.
  apply (Dump_round_trip sample_value); vm_compute; reflexivity.
Defined.

(** C1 fails as stated.  A NaN whose bits are not those of [go_NaN] comes
    back as [go_NaN]: [Dump] writes the same [Fnan] for both, so no machine
    could give both back.  And an array that holds -Inf does not come back
    at all: [dumpFloat] leaves two floats on the stack, and [Aadd] finds the
    first of them where the array should be. *)
Lemma round_trip_changes_NaN_and_breaks_on_neg_inf :
  (defined_kinds (NewFloatValue quiet_NaN) = true /\
   well_typed (NewFloatValue quiet_NaN) = true /\
   IsNaN quiet_NaN = true /\
   emitted (Dump recorder (NewFloatValue quiet_NaN)) = [Fnan] /\
   emitted (Dump recorder (NewFloatValue go_NaN)) = [Fnan] /\
   round_trip (NewFloatValue quiet_NaN) = inr (NewFloatValue go_NaN) /\
   value_eqb (NewFloatValue go_NaN) (NewFloatValue quiet_NaN) = false) /\
  (defined_kinds (NewArrayValue [NewFloatValue neg_inf]) = true /\
   well_typed (NewArrayValue [NewFloatValue neg_inf]) = true /\
   round_trip (NewArrayValue [NewFloatValue neg_inf]) = inl ErrTypeMismatch).
Proof. repeat split; vm_compute; reflexivity. Qed.

(** -Inf on its own does come back: the second float that [dumpFloat]
    leaves on the stack is -Inf again, above the first. *)
Lemma round_trip_neg_inf_alone :
  round_trip (NewFloatValue neg_inf) = inr (NewFloatValue neg_inf) /\
  FeedMulti (emitted (Dump recorder (NewFloatValue neg_inf))) NewVM
  = (None, [NewFloatValue neg_inf; NewFloatValue neg_inf]).
Proof. split; vm_compute; reflexivity. Qed.

(** ** The adapter *)

(** [FromValue] does not panic on values of defined kinds. *)
Lemma FromValue_array_defined (arr : list Value) :
  Forall (fun v => exists n, FromValue v = Returns n) arr ->
  forall acc, exists ns, FromValue_array FromValue arr acc
                         = Returns (Some (NSlice (Some ns))).
Proof.
  induction 1 as [|v rest [n Hn] _ IH]; intros acc.
  - eexists; reflexivity.
  - cbn [FromValue_array]. rewrite Hn. apply IH.
Qed.

Lemma FromValue_object_defined (obj : list (list byte * Value)) :
  Forall (fun kv => exists n, FromValue (snd kv) = Returns n) obj ->
  forall acc, exists m, FromValue_object FromValue obj acc
                        = Returns (Some (NStringMap (Some m))).
Proof.
  induction 1 as [|[k v] rest [n Hn] _ IH]; intros acc.
  - eexists; reflexivity.
  - cbn [FromValue_object snd] in *. rewrite Hn. apply IH.
Qed.

Lemma FromValue_defined (v : Value) :
  defined_kinds v = true -> exists n, FromValue v = Returns n.
Proof.
  induction v as [i|u|x|s|obj IH|arr IH|b| |k] using Value_nested_ind;
    intros Hdef; try (eexists; reflexivity); try discriminate.
  - pose proof (defined_kinds_object obj Hdef) as Hd.
    destruct (FromValue_object_defined obj) with (acc := @nil (list byte * Native))
      as [m Hm]; [|eexists; exact Hm].
    clear Hdef. induction IH as [|kv rest Hkv _ IHrest]; constructor.
    + inversion Hd; subst. apply Hkv. assumption.
    + inversion Hd; subst. apply IHrest. assumption.
  - pose proof (defined_kinds_array arr Hdef) as Hd.
    destruct (FromValue_array_defined arr) with (acc := @nil Native)
      as [m Hm]; [|eexists; exact Hm].
    clear Hdef. induction IH as [|x rest Hx _ IHrest]; constructor.
    + inversion Hd; subst. apply Hx. assumption.
    + inversion Hd; subst. apply IHrest. assumption.
Qed.

(** What the loops of [FromValue] return: the entries, or the elements,
    converted one by one and added after those already there. *)
Lemma FromValue_object_shape (obj : list (list byte * Value))
  (acc : list (list byte * Native)) (n : option Native) :
  FromValue_object FromValue obj acc = Returns n ->
  exists ms, n = Some (NStringMap (Some (acc ++ ms))) /\
    Forall2 (fun kv km => exists x, FromValue (snd kv) = Returns x /\
                                    km = (fst kv, NInterface x)) obj ms.
Proof.
  revert acc. induction obj as [|[k v] rest IH]; intros acc H.
  - cbn in H. inversion H. exists []. rewrite app_nil_r. split; constructor.
  - cbn [FromValue_object] in H. destruct (FromValue v) as [x|p] eqn:Hx;
      [|discriminate].
    destruct (IH _ H) as (ms & -> & Hms).
    exists ((k, NInterface x) :: ms). rewrite <- app_assoc. split; [reflexivity|].
    constructor; [|exact Hms]. exists x. split; [exact Hx|reflexivity].
Qed.

Lemma FromValue_array_shape (arr : list Value) (acc : list Native)
  (n : option Native) :
  FromValue_array FromValue arr acc = Returns n ->
  exists ns, n = Some (NSlice (Some (acc ++ ns))) /\
    Forall2 (fun v m => exists x, FromValue v = Returns x /\ m = NInterface x)
            arr ns.
Proof.
  revert acc. induction arr as [|v rest IH]; intros acc H.
  - cbn in H. inversion H. exists []. rewrite app_nil_r. split; constructor.
  - cbn [FromValue_array] in H. destruct (FromValue v) as [x|p] eqn:Hx;
      [|discriminate].
    destruct (IH _ H) as (ns & -> & Hns).
    exists (NInterface x :: ns). rewrite <- app_assoc. split; [reflexivity|].
    constructor; [|exact Hns]. exists x. split; [exact Hx|reflexivity].
Qed.

(** [FromValue] loses nothing: two values with the same native form are the
    same value. *)
Lemma FromValue_injective (v v' : Value) (n : option Native) :
  FromValue v = Returns n -> FromValue v' = Returns n -> v = v'.
Proof.
  revert v' n.
  induction v as [i|u|x|s|obj IH|arr IH|b| |k] using Value_nested_ind;
    intros v' n Hv Hv'.
  1-4, 7-9:
    destruct v' as [i'|u'|x'|s'|obj'|arr'|b'| |k']; cbn in Hv, Hv';
    try congruence;
    try (apply FromValue_object_shape in Hv'; destruct Hv' as (? & ? & _);
         congruence);
    try (apply FromValue_array_shape in Hv'; destruct Hv' as (? & ? & _);
         congruence).
  - cbn [FromValue] in Hv. apply FromValue_object_shape in Hv.
    destruct Hv as (ms & -> & Hms). cbn [app] in *.
    destruct v' as [i'|u'|x'|s'|obj'|arr'|b'| |k']; cbn [FromValue] in Hv';
      try discriminate.
    + apply FromValue_object_shape in Hv'. destruct Hv' as (ms' & Heq & Hms').
      inversion Heq; subst ms'. f_equal. clear Heq.
      revert obj' Hms'. induction Hms as [|[k v] km rest ms (x & Hx & ->) _ IHrest];
        intros obj' Hms'.
      * inversion Hms'. reflexivity.
      * inversion Hms' as [|[k' v'] ? rest' ? (x' & Hx' & Hkm) Hrest']. subst.
        inversion IH as [|? ? Hkv IHtail]. subst. cbn [fst snd] in *.
        inversion Hkm. subst.
        rewrite (Hkv v' _ Hx Hx'), (IHrest IHtail rest' Hrest'). reflexivity.
    + apply FromValue_array_shape in Hv'. destruct Hv' as (? & ? & _).
      discriminate.
  - cbn [FromValue] in Hv. apply FromValue_array_shape in Hv.
    destruct Hv as (ns & -> & Hns). cbn [app] in *.
    destruct v' as [i'|u'|x'|s'|obj'|arr'|b'| |k']; cbn [FromValue] in Hv';
      try discriminate.
    + apply FromValue_object_shape in Hv'. destruct Hv' as (? & ? & _).
      discriminate.
    + apply FromValue_array_shape in Hv'. destruct Hv' as (ns' & Heq & Hns').
      inversion Heq; subst ns'. f_equal. clear Heq.
      revert arr' Hns'. induction Hns as [|v m rest ns (x & Hx & ->) _ IHrest];
        intros arr' Hns'.
      * inversion Hns'. reflexivity.
      * inversion Hns' as [|v' ? rest' ? (x' & Hx' & Hm) Hrest']. subst.
        inversion IH as [|? ? Hv0 IHtail]. subst.
        inversion Hm. subst.
        rewrite (Hv0 v' _ Hx Hx'), (IHrest IHtail rest' Hrest'). reflexivity.
Qed.

(** C4, as the code has it.  On values of defined kinds [FromValue] loses
    nothing: an object becomes a string-keyed map, an array a slice, [Nil]
    the nil interface, and two values with the same native form are the same
    value.  For every value of kind Int, Uint, Float, String, Bool or Nil,
    [ToValue(FromValue(v))] is [v].  For the slice that an array becomes
    [ToValue] has no rule: the conversion back panics with "can't
    convert". *)
Theorem back_and_forth_scalars_and_arrays (v : Value) :
  defined_kinds v = true ->
  (exists n, FromValue v = Returns n /\
             forall v', FromValue v' = Returns n -> v' = v) /\
  (forall obj, v = NewObjectValue obj ->
     exists m, FromValue v = Returns (Some (NStringMap (Some m)))) /\
  (v = NewNilValue -> FromValue v = Returns None) /\
  (is_scalar v = true -> back_and_forth v = Returns v) /\
  (forall arr, v = NewArrayValue arr ->
     exists ns, FromValue v = Returns (Some (NSlice (Some ns))) /\
                back_and_forth v = Panics (CantConvert (NSlice (Some ns)))).
Proof.
  intros Hdef.
  destruct (FromValue_defined v Hdef) as [n Hn].
  split; [|split; [|split; [|split]]].
  - exists n. split; [exact Hn|].
    intros v' Hv'. apply (FromValue_injective v' v n Hv' Hn).
  - intros obj ->. cbn [FromValue] in Hn.
    destruct (FromValue_object_shape _ _ _ Hn) as (ms & -> & _).
    exists ms. exact Hn.
  - intros ->. reflexivity.
  - destruct v; try discriminate; intros _; reflexivity.
  - intros arr ->. cbn [FromValue] in Hn.
    destruct (FromValue_array_shape _ _ _ Hn) as (ns & -> & _).
    exists ns. unfold back_and_forth. cbn [FromValue]. rewrite Hn.
    split; reflexivity.
Qed.

Lemma back_and_forth_scalars_and_arrays_witness :
  back_and_forth (NewStringValue [x68; x69]) = Returns (NewStringValue [x68; x69]) /\
  exists ns,
    FromValue (NewArrayValue [NewIntValue 1; NewNilValue])
    = Returns (Some (NSlice (Some ns))) /\
    back_and_forth (NewArrayValue [NewIntValue 1; NewNilValue])
    = Panics (CantConvert (NSlice (Some ns))).
Proof.
  split.
  - destruct (back_and_forth_scalars_and_arrays
                (NewStringValue [x68; x69]) eq_refl) as (_ & _ & _ & H & _).
    exact (H eq_refl).
  - destruct (back_and_forth_scalars_and_arrays
                (NewArrayValue [NewIntValue 1; NewNilValue]) eq_refl)
      as (_ & _ & _ & _ & H).
    exact (H [NewIntValue 1; NewNilValue] eq_refl).
Defined.

(** C4 fails as stated: the empty array, and every other array, does not
    come back from its native form. *)
Lemma back_and_forth_array_panics :
  defined_kinds (NewArrayValue []) = true /\
  FromValue (NewArrayValue []) = Returns (Some (NSlice (Some []))) /\
  back_and_forth (NewArrayValue []) = Panics (CantConvert (NSlice (Some []))) /\
  back_and_forth (NewArrayValue [NewIntValue 1])
  = Panics (CantConvert (NSlice (Some [NInterface (Some (NInt TInt64 false 1))]))).
Proof. repeat split; reflexivity. Qed.

(** An object comes back when it is empty or holds only [nil]s.  Any other
    entry of the [map[string]interface{}] reaches [reflectValueToValue] with
    the kind [reflect.Interface], which it does not look through. *)
Lemma back_and_forth_objects :
  back_and_forth (NewObjectValue []) = Returns (NewObjectValue []) /\
  back_and_forth (NewObjectValue [([x61], NewNilValue)])
  = Returns (NewObjectValue [([x61], NewNilValue)]) /\
  back_and_forth (NewObjectValue [([x61], NewIntValue 1)])
  = Panics (CantConvert (NInterface (Some (NInt TInt64 false 1)))).
Proof. repeat split; reflexivity. Qed.

(** A string-keyed map whose element type is not an interface does convert:
    [map[string]int{"a": 1}]. *)
Lemma ToValue_typed_map :
  ToValue (Some (NStringMap (Some [([x61], NInt TInt false 1)])))
  = Returns (NewObjectValue [([x61], NewIntValue 1)]).
Proof. reflexivity. Qed.

(** X23.  A native value that falls under no conversion rule (no nil
    reference, no bool, integer, float, string or byte sequence, no
    string-keyed map) is never converted: [reflectValueToValue], and [ToValue]
    with it, panics.  The panic carries the "can't convert <type>" error when
    the value's kind has a nil (chan, func, interface, map, pointer, slice,
    unsafe pointer), and otherwise the error of [reflect.Value.IsNil], which
    names the kind. *)
Theorem no_rule_panics (v : Native) :
  matches_no_rule v = true ->
  reflectValueToValue v
  = Panics (match IsNil v with
            | Some _ => CantConvert v
            | None => IsNilValueError (Kind_of v)
            end) /\
  ToValue (Some v) = reflectValueToValue v /\
  (forall x, ToValue (Some v) <> Returns x).
Proof.
  intros H.
  assert (H1 : reflectValueToValue v
               = Panics (match IsNil v with
                         | Some _ => CantConvert v
                         | None => IsNilValueError (Kind_of v)
                         end)).
  { by_native_cases v; try discriminate H; reflexivity. }
  assert (H2 : ToValue (Some v) = reflectValueToValue v).
  { by_native_cases v; try discriminate H; reflexivity. }
  split; [exact H1|]. split; [exact H2|].
  intros x. rewrite H2, H1. discriminate.
Qed.

(** [[]int{1}] and [struct{}{}]. *)
Lemma no_rule_panics_witness :
  (ToValue (Some (NSlice (Some [NInt TInt false 1])))
   = Panics (CantConvert (NSlice (Some [NInt TInt false 1])))) /\
  (ToValue (Some NStruct) = Panics (IsNilValueError reflect.Struct)).
Proof.
  split.
  - destruct (no_rule_panics (NSlice (Some [NInt TInt false 1])) eq_refl)
      as (H1 & H2 & _).
    rewrite H2. exact H1.
  - destruct (no_rule_panics NStruct eq_refl) as (H1 & H2 & _).
    rewrite H2. exact H1.
Defined.

(** C7, where the code fails: [ToValue(struct{}{})].  A struct falls under
    no conversion rule, yet [reflectValueToValue] does not reach its "can't
    convert" panic for it: [v.IsNil()], which stands before, panics on a
    value whose kind has no nil, with the [*reflect.ValueError] of
    [reflect].  The same happens for an array, a complex number and a
    [uintptr].  A value whose kind has a nil and that falls under no rule,
    such as the slice [[]int{1}], does reach "can't convert". *)
Theorem no_rule_struct_panics_in_IsNil :
  matches_no_rule NStruct = true /\
  IsNil NStruct = None /\
  ToValue (Some NStruct) = Panics (IsNilValueError reflect.Struct) /\
  ToValue (Some NStruct) <> Panics (CantConvert NStruct) /\
  ToValue (Some NArray) = Panics (IsNilValueError reflect.Array) /\
  ToValue (Some (NComplex true)) = Panics (IsNilValueError reflect.Complex128) /\
  ToValue (Some (NUintptr 0)) = Panics (IsNilValueError reflect.Uintptr) /\
  ToValue (Some (NSlice (Some [NInt TInt false 1])))
  = Panics (CantConvert (NSlice (Some [NInt TInt false 1]))).
Proof. repeat split; try reflexivity. cbn. discriminate. Qed.

(** In [reflectValueToValue] the nil test stands before the conversion of
    byte sequences and of maps: every nil reference becomes [Nil]. *)
Lemma reflectValueToValue_nil_reference (v : Native) :
  is_nil_reference v = true -> reflectValueToValue v = Returns NewNilValue.
Proof.
  intros H. by_native_cases v; try discriminate H; reflexivity.
Qed.

(** [ToValue] gives [Nil] for every nil reference but one: the nil slice of
    the predeclared type [[]byte]. *)
Lemma ToValue_nil_reference (v : Native) :
  is_nil_reference v = true -> v <> NBytes false None ->
  ToValue (Some v) = Returns NewNilValue.
Proof.
  intros H Hne. by_native_cases v; try discriminate H; try reflexivity.
  congruence.
Qed.

(** C8, where the code fails: [ToValue(([]byte)(nil))].  The type switch of
    [ToValue] takes the case [[]byte] before any test for nil and returns
    the empty string, while [reflectValueToValue] on the same value, and
    [ToValue] on a nil slice of a defined type [type B []byte] or on a nil
    string-keyed map, return [Nil]. *)
Theorem ToValue_nil_bytes_is_empty_string :
  is_nil_reference (NBytes false None) = true /\
  ToValue (Some (NBytes false None)) = Returns (NewStringValue []) /\
  reflectValueToValue (NBytes false None) = Returns NewNilValue /\
  ToValue (Some (NBytes true None)) = Returns NewNilValue /\
  ToValue (Some (NStringMap None)) = Returns NewNilValue.
Proof. repeat split; reflexivity. Qed.

(** * Further facts on the dumper *)

(** ** What [Dump] writes for an object and for an array *)

Lemma emitted_Dump_object (obj : list (list byte * Value)) :
  Forall (fun kv => defined_kinds (snd kv) = true) obj ->
  emitted (Dump recorder (NewObjectValue obj))
  = Onew :: flat_map (fun kv => string_ops (fst kv)
                                ++ emitted (Dump recorder (snd kv)) ++ [Oadd]) obj.
Proof.
  intros Hd. cbn [Dump]. unfold dumpObject.
  destruct (recorded_andThen _ _ (proj1 (recorded_emit Onew))
              (dumpObject_range_recorded obj Hd)) as [_ E].
  rewrite E, (proj2 (recorded_emit Onew)). cbn [app]. f_equal.
  clear E.
  induction Hd as [|[k v] rest Hv Hrest IH]; [reflexivity|].
  rewrite emitted_dumpObject_range_cons by assumption.
  cbn [flat_map fst snd]. rewrite IH, <- !app_assoc. reflexivity.
Qed.

Lemma emitted_Dump_array (arr : list Value) :
  Forall (fun v => defined_kinds v = true) arr ->
  emitted (Dump recorder (NewArrayValue arr))
  = Anew :: flat_map (fun v => emitted (Dump recorder v) ++ [Aadd]) arr.
Proof.
  intros Hd. cbn [Dump]. unfold dumpArray.
  destruct (recorded_andThen _ _ (proj1 (recorded_emit Anew))
              (dumpArray_range_recorded arr Hd)) as [_ E].
  rewrite E, (proj2 (recorded_emit Anew)). cbn [app]. f_equal.
  clear E.
  induction Hd as [|v rest Hv Hrest IH]; [reflexivity|].
  rewrite emitted_dumpArray_range_cons by assumption.
  cbn [flat_map]. rewrite IH, <- !app_assoc. reflexivity.
Qed.

(** On every sink [Dump v] writes the ops it writes to the recording sink. *)
Lemma Dump_emits (v : Value) :
  defined_kinds v = true -> well_typed v = true ->
  forall (W E : Type) (Write : Op -> W -> option E * W),
    emits Write (Dump Write v) (emitted (Dump recorder v)).
Proof.
  induction v as [i|u|x|s|obj IH|arr IH|b| |k] using Value_nested_ind;
    intros Hdef Hwt W E Write.
  - assert (Hu : 0 <= uint64_of_int64 i < 2 ^ 64)
      by (unfold uint64_of_int64; apply Z.mod_pos_bound; lia).
    cbn [Dump]. rewrite (emits_emitted _ _ (dumpInt_emits recorder _ Hu)).
    apply dumpInt_emits, Hu.
  - apply is_uint64_iff in Hwt. cbn [Dump]. unfold dumpUint.
    rewrite (emits_emitted _ _
               (emits_andThen recorder _ _ _ _
                  (dumpInt_emits recorder u Hwt) (emits_emit recorder Itou))).
    apply emits_andThen; [apply dumpInt_emits, Hwt|apply emits_emit].
  - apply is_uint64_iff in Hwt. cbn [Dump].
    rewrite (emits_emitted _ _ (dumpFloat_emits recorder x Hwt)).
    apply dumpFloat_emits, Hwt.
  - cbn [Dump]. rewrite (proj2 (dumpString_recorded s)). apply dumpString_emits.
  - pose proof (defined_kinds_object obj Hdef) as Hd.
    destruct (well_typed_object obj Hwt) as [_ Hw].
    rewrite (emitted_Dump_object obj Hd). cbn [Dump]. unfold dumpObject.
    apply emits_cons. clear Hdef Hwt.
    induction IH as [|[k v] rest Hv _ IHrest]; [apply emits_ret|].
    inversion Hd; inversion Hw; subst. cbn [fst snd] in *.
    cbn [dumpObject_range flat_map fst snd]. rewrite <- !app_assoc.
    apply emits_andThen; [apply dumpString_emits|].
    apply emits_andThen; [apply Hv; assumption|].
    apply emits_cons. apply IHrest; assumption.
  - pose proof (defined_kinds_array arr Hdef) as Hd.
    pose proof (well_typed_array arr Hwt) as Hw.
    rewrite (emitted_Dump_array arr Hd). cbn [Dump]. unfold dumpArray.
    apply emits_cons. clear Hdef Hwt.
    induction IH as [|v rest Hv _ IHrest]; [apply emits_ret|].
    inversion Hd; inversion Hw; subst.
    cbn [dumpArray_range flat_map]. rewrite <- !app_assoc.
    apply emits_andThen; [apply Hv; assumption|].
    apply emits_cons. apply IHrest; assumption.
  - cbn [Dump]. unfold dumpBool. destruct b.
    + apply (emits_cons Write Bnew _ [Bneg]), emits_emit.
    + apply (emits_cons Write Bnew _ []), emits_ret.
  - apply emits_emit.
  - discriminate.
Qed.

(** X1.  For every value of defined kinds, [Dump] does the same on every
    sink: it writes, in order, the ops that it writes to a sink that accepts
    everything, stops at the first write the sink refuses and returns that
    error, and returns [nil] when no write is refused. *)
Theorem Dump_same_ops_on_every_sink
  {W E : Type} (Write : Op -> W -> option E * W) (v : Value) (w : W) :
  defined_kinds v = true -> well_typed v = true ->
  Dump Write v w = WriteAll Write (emitted (Dump recorder v)) w.
Proof. intros Hdef Hwt. apply (Dump_emits v Hdef Hwt). Qed.

Lemma Dump_same_ops_on_every_sink_witness :
  Dump (refuses_write 40 7) sample_value 0%nat
  = WriteAll (refuses_write 40 7) (emitted (Dump recorder sample_value)) 0%nat.
Proof.
  apply (Dump_same_ops_on_every_sink (refuses_write 40 7) sample_value 0%nat);
    vm_compute; reflexivity.
Defined.

(** X2.  For an object whose values have defined kinds, [Dump] writes
    [Onew] and then, for each entry in the order of the [range], what it
    writes for the key as a string, what it writes for the value, and
    [Oadd]. *)
Theorem Dump_object_ops (obj : list (list byte * Value)) :
  defined_kinds (NewObjectValue obj) = true ->
  emitted (Dump recorder (NewObjectValue obj))
  = Onew :: flat_map (fun kv => emitted (Dump recorder (NewStringValue (fst kv)))
                                ++ emitted (Dump recorder (snd kv)) ++ [Oadd]) obj.
Proof.
  intros Hdef. rewrite (emitted_Dump_object obj (defined_kinds_object obj Hdef)).
  f_equal. apply flat_map_ext. intros [k v]. cbn [fst snd Dump].
  rewrite (proj2 (dumpString_recorded k)). reflexivity.
Qed.

Lemma Dump_object_ops_witness :
  emitted (Dump recorder (NewObjectValue [([x61], NewNilValue); ([], NewBoolValue true)]))
  = Onew :: flat_map (fun kv => emitted (Dump recorder (NewStringValue (fst kv)))
                                ++ emitted (Dump recorder (snd kv)) ++ [Oadd])
                     [([x61], NewNilValue); ([], NewBoolValue true)].
Proof.
  apply (Dump_object_ops [([x61], NewNilValue); ([], NewBoolValue true)]).
  reflexivity.
Defined.

(** X3.  For an array whose elements have defined kinds, [Dump] writes
    [Anew] and then, for each element in order, what it writes for the
    element and [Aadd]; for the empty array it writes [Anew] alone. *)
Theorem Dump_array_ops (arr : list Value) :
  defined_kinds (NewArrayValue arr) = true ->
  emitted (Dump recorder (NewArrayValue arr))
  = Anew :: flat_map (fun v => emitted (Dump recorder v) ++ [Aadd]) arr.
Proof. intros Hdef. apply emitted_Dump_array, defined_kinds_array, Hdef. Qed.

Lemma Dump_array_ops_witness :
  emitted (Dump recorder (NewArrayValue [NewNilValue; NewArrayValue []]))
  = Anew :: flat_map (fun v => emitted (Dump recorder v) ++ [Aadd])
                     [NewNilValue; NewArrayValue []].
Proof.
  apply (Dump_array_ops [NewNilValue; NewArrayValue []]). reflexivity.
Defined.

(** X4.  For every unsigned 64-bit [n], on every sink, [dumpUint n] writes
    the ops of [dumpInt n] and then [Itou]. *)
Theorem dumpUint_emits {W E : Type} (Write : Op -> W -> option E * W) (n : Z) :
  0 <= n < 2 ^ 64 ->
  emits Write (dumpUint Write n) (emitted (dumpInt recorder n) ++ [Itou]) /\
  emitted (Dump recorder (NewUintValue n)) = emitted (dumpInt recorder n) ++ [Itou].
Proof.
  intros Hn.
  rewrite (emits_emitted _ _ (dumpInt_emits recorder n Hn)). split.
  - apply emits_andThen; [apply dumpInt_emits, Hn|apply emits_emit].
  - apply emits_emitted. cbn [Dump].
    apply emits_andThen; [apply dumpInt_emits, Hn|apply emits_emit].
Qed.

Lemma dumpUint_emits_witness :
  emits recorder (dumpUint recorder 5) (emitted (dumpInt recorder 5) ++ [Itou]) /\
  emitted (Dump recorder (NewUintValue 5)) = emitted (dumpInt recorder 5) ++ [Itou].
Proof. apply (dumpUint_emits recorder 5). split; [discriminate|reflexivity]. Defined.

(** X5.  For every float (as its 64 bits), on every sink, [dumpFloat]
    writes [Fnan] for a NaN and [Finf] for +Inf, and nothing else; for any
    other float it writes the ops of [dumpInt] on the bits and [Itof], after
    [Finf] and [Fneg] when the float is -Inf. *)
Theorem dumpFloat_cases {W E : Type} (Write : Op -> W -> option E * W) (x : float64) :
  0 <= x < 2 ^ 64 ->
  emits Write (dumpFloat Write x)
        (if IsNaN x then [Fnan]
         else if IsInf x 1 then [Finf]
         else (if IsInf x (-1) then [Finf; Fneg] else [])
              ++ emitted (dumpInt recorder (Float64bits x)) ++ [Itof]).
Proof.
  intros Hx. unfold Float64bits.
  rewrite (emits_emitted _ _ (dumpInt_emits recorder x Hx)).
  apply dumpFloat_emits, Hx.
Qed.

Lemma dumpFloat_cases_witness :
  emits recorder (dumpFloat recorder 0x3FF0000000000000)
        (emitted (dumpInt recorder 0x3FF0000000000000) ++ [Itof]).
Proof.
  apply (dumpFloat_cases recorder 0x3FF0000000000000).
  split; [discriminate|reflexivity].
Defined.

(** ** A sink that accepts everything *)

Lemma returns_nil_emit {W E : Type} (Write : Op -> W -> option E * W) (op : Op) :
  accepts_all Write -> returns_nil (emit Write op).
Proof.
  intros Hacc w. unfold emit. specialize (Hacc op w).
  destruct (Write op w) as [[e|] w']; [discriminate|reflexivity].
Qed.

Lemma returns_nil_andThen {W E : Type} (a b : M W E) :
  returns_nil a -> returns_nil b -> returns_nil (andThen a b).
Proof.
  intros Ha Hb w. unfold andThen. specialize (Ha w).
  destruct (a w) as [[|e|k] w']; try discriminate. apply Hb.
Qed.

(** When [a] panics, so does [a] followed by [b]. *)
Lemma andThen_panics {W E : Type} (a b : M W E) (w : W) :
  (exists k, fst (a w) = Panicked k) ->
  exists k, fst (andThen a b w) = Panicked k.
Proof.
  intros [k Hk]. unfold andThen.
  destruct (a w) as [[|e|k'] w']; try discriminate. exists k'. reflexivity.
Qed.

(** When [a] returns [nil], [a] followed by [b] ends as [b] does. *)
Lemma andThen_after_nil {W E : Type} (a b : M W E) (w : W) :
  fst (a w) = Done -> exists w', andThen a b w = b w'.
Proof.
  intros Ha. unfold andThen.
  destruct (a w) as [[|e|k] w']; try discriminate. exists w'. reflexivity.
Qed.

Lemma nil_or_panic_andThen {W E : Type} (a b : M W E) (da db : bool) :
  nil_or_panic a da -> nil_or_panic b db -> nil_or_panic (andThen a b) (da && db).
Proof.
  intros Ha Hb w. specialize (Ha w). destruct da; cbn [andb].
  - destruct (andThen_after_nil a b w Ha) as [w' ->]. apply Hb.
  - apply andThen_panics, Ha.
Qed.

Lemma nil_or_panic_of_nil {W E : Type} (m : M W E) :
  returns_nil m -> nil_or_panic m true.
Proof. intros H w. apply H. Qed.

Lemma Dump_nil_or_panic {W E : Type} (Write : Op -> W -> option E * W) (v : Value) :
  accepts_all Write -> nil_or_panic (Dump Write v) (defined_kinds v).
Proof.
  intros Hacc.
  assert (Hemit : forall op, returns_nil (emit Write op))
    by (intros op; apply returns_nil_emit, Hacc).
  assert (Hret : returns_nil (@ret W E)) by (intros w; reflexivity).
  induction v as [i|u|x|s|obj IH|arr IH|b| |k] using Value_nested_ind.
  - apply nil_or_panic_of_nil.
    apply (closed_dumpInt Write returns_nil Hret Hemit (@returns_nil_andThen W E)).
  - apply nil_or_panic_of_nil.
    apply (closed_dumpUint Write returns_nil Hret Hemit (@returns_nil_andThen W E)).
  - apply nil_or_panic_of_nil.
    apply (closed_dumpFloat Write returns_nil Hret Hemit (@returns_nil_andThen W E)).
  - apply nil_or_panic_of_nil.
    apply (closed_dumpString Write returns_nil Hret Hemit (@returns_nil_andThen W E)).
  - cbn [Dump defined_kinds]. unfold dumpObject.
    apply (nil_or_panic_andThen _ _ true _);
      [apply nil_or_panic_of_nil, Hemit|].
    induction IH as [|[k v] rest Hv _ IHrest];
      [apply nil_or_panic_of_nil, Hret|].
    cbn [dumpObject_range snd] in *.
    apply (nil_or_panic_andThen _ _ true _).
    { apply nil_or_panic_of_nil.
      apply (closed_dumpString Write returns_nil Hret Hemit
               (@returns_nil_andThen W E)). }
    apply nil_or_panic_andThen; [exact Hv|].
    apply (nil_or_panic_andThen _ _ true _);
      [apply nil_or_panic_of_nil, Hemit|exact IHrest].
  - cbn [Dump defined_kinds]. unfold dumpArray.
    apply (nil_or_panic_andThen _ _ true _);
      [apply nil_or_panic_of_nil, Hemit|].
    induction IH as [|v rest Hv _ IHrest];
      [apply nil_or_panic_of_nil, Hret|].
    cbn [dumpArray_range].
    apply nil_or_panic_andThen; [exact Hv|].
    apply (nil_or_panic_andThen _ _ true _);
      [apply nil_or_panic_of_nil, Hemit|exact IHrest].
  - apply nil_or_panic_of_nil.
    apply (closed_dumpBool Write returns_nil Hret Hemit (@returns_nil_andThen W E)).
  - apply nil_or_panic_of_nil, Hemit.
  - intros w. exists k. reflexivity.
Qed.

(** X6.  On a sink that refuses no write, [Dump v] returns [nil] when every
    kind in [v], however deep, is one of the eight defined kinds, and panics
    when [v] holds a value of another kind. *)
Theorem Dump_on_accepting_sink
  {W E : Type} (Write : Op -> W -> option E * W) (v : Value) (w : W) :
  accepts_all Write ->
  (defined_kinds v = true -> fst (Dump Write v w) = Done) /\
  (defined_kinds v = false -> exists k, fst (Dump Write v w) = Panicked k).
Proof.
  intros Hacc. pose proof (Dump_nil_or_panic Write v Hacc w) as H.
  split; intros Hd; rewrite Hd in H; exact H.
Qed.

Lemma Dump_on_accepting_sink_witness :
  fst (Dump recorder sample_value []) = Done /\
  exists k, fst (Dump recorder
                   (NewArrayValue [NewNilValue; NewObjectValue [([], UnknownKindValue 9)]])
                   []) = Panicked k.
Proof.
  assert (Hacc : accepts_all recorder) by (intros op w; reflexivity).
  split.
  - apply (Dump_on_accepting_sink recorder sample_value [] Hacc). reflexivity.
  - apply (Dump_on_accepting_sink recorder
             (NewArrayValue [NewNilValue; NewObjectValue [([], UnknownKindValue 9)]])
             [] Hacc).
    reflexivity.
Defined.

(** ** A sink that refuses one write *)

Lemma WriteAll_refuses_write (k err : nat) (ops : list Op) (count : nat) :
  WriteAll (refuses_write k err) ops count
  = if (count <=? k)%nat && (k <? count + length ops)%nat
    then (Failed err, S k)
    else (Done, (count + length ops)%nat).
Proof.
  revert count. induction ops as [|op ops IH]; intros count.
  - cbn [WriteAll length]. unfold ret.
    destruct (Nat.leb_spec count k); destruct (Nat.ltb_spec k (count + 0));
      cbn [andb]; try lia; f_equal; lia.
  - cbn [WriteAll length]. unfold andThen, emit, refuses_write at 1.
    destruct (Nat.eqb_spec count k) as [->|Hne].
    + destruct (Nat.leb_spec k k); [|lia].
      destruct (Nat.ltb_spec k (k + S (length ops))); [|lia]. reflexivity.
    + rewrite IH.
      destruct (Nat.leb_spec (S count) k); destruct (Nat.leb_spec count k);
        destruct (Nat.ltb_spec k (S count + length ops));
        destruct (Nat.ltb_spec k (count + S (length ops)));
        cbn [andb]; try lia; try reflexivity; f_equal; lia.
Qed.

(** X7.  Let the sink refuse the write number [k] (counting from zero) and
    accept the others.  When [Dump v] has more than [k] ops to write, it
    makes exactly [k + 1] calls of [Write] and returns the error of the
    last; otherwise it makes one call for each op and returns [nil]. *)
Theorem Dump_counts_writes (v : Value) (k err : nat) :
  defined_kinds v = true -> well_typed v = true ->
  Dump (refuses_write k err) v 0%nat
  = if (k <? length (emitted (Dump recorder v)))%nat
    then (Failed err, S k)
    else (Done, length (emitted (Dump recorder v))).
Proof.
  intros Hdef Hwt. rewrite (Dump_emits v Hdef Hwt), WriteAll_refuses_write.
  reflexivity.
Qed.

Lemma Dump_counts_writes_witness :
  Dump (refuses_write 1 7) (NewBoolValue true) 0%nat = (Failed 7%nat, 2%nat) /\
  Dump (refuses_write 2 7) (NewBoolValue true) 0%nat = (Done, 2%nat).
Proof.
  split.
  - apply (Dump_counts_writes (NewBoolValue true) 1 7); reflexivity.
  - apply (Dump_counts_writes (NewBoolValue true) 2 7); reflexivity.
Defined.

(** ** The ops that [Dump] uses *)

Lemma dumper_op_shift_and_set (n : Z) (k : nat) :
  forallb dumper_op (shift_and_set n k) = true.
Proof.
  induction k as [|k IH]; [reflexivity|].
  rewrite shift_and_set_S, forallb_app, IH.
  destruct (Z.testbit n (Z.of_nat k)); reflexivity.
Qed.

Lemma dumper_op_msb_first_ops (n : Z) : forallb dumper_op (msb_first_ops n) = true.
Proof.
  unfold msb_first_ops. destruct (n =? 0); [reflexivity|].
  cbn [forallb dumper_op andb]. apply dumper_op_shift_and_set.
Qed.

Lemma dumper_op_string_ops (s : list byte) : forallb dumper_op (string_ops s) = true.
Proof.
  unfold string_ops. cbn [forallb dumper_op andb].
  induction s as [|c s IH]; [reflexivity|].
  cbn [flat_map]. rewrite !forallb_app, dumper_op_msb_first_ops, IH. reflexivity.
Qed.

(** X8.  [Dump] writes no [Iadd], no [Ineg] and no [Isht]: of the twenty
    ops, these three occur in no output of the dumper. *)
Theorem Dump_never_writes_Iadd_Ineg_Isht (v : Value) :
  defined_kinds v = true -> well_typed v = true ->
  forallb dumper_op (emitted (Dump recorder v)) = true /\
  ~ In Iadd (emitted (Dump recorder v)) /\
  ~ In Ineg (emitted (Dump recorder v)) /\
  ~ In Isht (emitted (Dump recorder v)).
Proof.
  intros Hdef Hwt.
  assert (H : forallb dumper_op (emitted (Dump recorder v)) = true).
  { revert Hdef Hwt.
    induction v as [i|u|x|s|obj IH|arr IH|b| |k] using Value_nested_ind;
      intros Hdef Hwt.
    - assert (Hu : 0 <= uint64_of_int64 i < 2 ^ 64)
        by (unfold uint64_of_int64; apply Z.mod_pos_bound; lia).
      cbn [Dump]. rewrite (emits_emitted _ _ (dumpInt_emits recorder _ Hu)).
      apply dumper_op_msb_first_ops.
    - apply is_uint64_iff in Hwt. cbn [Dump]. unfold dumpUint.
      rewrite (emits_emitted _ _
                 (emits_andThen recorder _ _ _ _
                    (dumpInt_emits recorder u Hwt) (emits_emit recorder Itou))).
      rewrite forallb_app, dumper_op_msb_first_ops. reflexivity.
    - apply is_uint64_iff in Hwt. cbn [Dump].
      rewrite (emits_emitted _ _ (dumpFloat_emits recorder x Hwt)).
      destruct (IsNaN x); [reflexivity|].
      destruct (IsInf x 1); [reflexivity|].
      rewrite !forallb_app, dumper_op_msb_first_ops.
      destruct (IsInf x (-1)); reflexivity.
    - cbn [Dump]. rewrite (proj2 (dumpString_recorded s)).
      apply dumper_op_string_ops.
    - pose proof (defined_kinds_object obj Hdef) as Hd.
      destruct (well_typed_object obj Hwt) as [_ Hw].
      rewrite (emitted_Dump_object obj Hd). cbn [forallb dumper_op andb].
      clear Hdef Hwt.
      induction IH as [|[k v] rest Hv _ IHrest]; [reflexivity|].
      inversion Hd; inversion Hw; subst. cbn [fst snd] in *.
      cbn [flat_map fst snd].
      rewrite !forallb_app, dumper_op_string_ops, Hv, IHrest by assumption.
      reflexivity.
    - pose proof (defined_kinds_array arr Hdef) as Hd.
      pose proof (well_typed_array arr Hwt) as Hw.
      rewrite (emitted_Dump_array arr Hd). cbn [forallb dumper_op andb].
      clear Hdef Hwt.
      induction IH as [|v rest Hv _ IHrest]; [reflexivity|].
      inversion Hd; inversion Hw; subst.
      cbn [flat_map].
      rewrite !forallb_app, Hv, IHrest by assumption. reflexivity.
    - destruct b; reflexivity.
    - reflexivity.
    - discriminate. }
  split; [exact H|].
  rewrite forallb_forall in H.
  repeat split; intros Hin; apply H in Hin; discriminate.
Qed.

Lemma Dump_never_writes_Iadd_Ineg_Isht_witness :
  forallb dumper_op (emitted (Dump recorder sample_value)) = true /\
  ~ In Iadd (emitted (Dump recorder sample_value)) /\
  ~ In Ineg (emitted (Dump recorder sample_value)) /\
  ~ In Isht (emitted (Dump recorder sample_value)).
Proof.
  apply (Dump_never_writes_Iadd_Ineg_Isht sample_value); vm_compute; reflexivity.
Defined.

(** ** The length of what [dumpInt] writes *)

Lemma length_shift_and_set (n : Z) (k : nat) :
  (k <= length (shift_and_set n k) <= 2 * k)%nat.
Proof.
  induction k as [|k IH]; [cbn; lia|].
  rewrite shift_and_set_S, length_app.
  destruct (Z.testbit n (Z.of_nat k)); cbn [length]; lia.
Qed.

(** X9.  For every unsigned 64-bit [n], [dumpInt n] writes at least one op
    and at most 128; when [n] is not zero and [m] is the index of its
    highest set bit, it writes at least [m + 2] and at most [2 m + 2]
    ops. *)
Theorem dumpInt_length (n : Z) :
  0 <= n < 2 ^ 64 ->
  (1 <= length (emitted (dumpInt recorder n)) <= 128)%nat /\
  (0 < n ->
   (Z.to_nat (highest_set_bit n) + 2 <= length (emitted (dumpInt recorder n))
    <= 2 * Z.to_nat (highest_set_bit n) + 2)%nat).
Proof.
  intros Hn. rewrite (emits_emitted _ _ (dumpInt_emits recorder n Hn)).
  unfold msb_first_ops, highest_set_bit.
  destruct (Z.eqb_spec n 0) as [->|Hnz].
  - split; [cbn; lia|lia].
  - pose proof (length_shift_and_set n (Z.to_nat (Z.log2 n))) as Hl.
    assert (Z.log2 n < 64) by (apply Z.log2_lt_pow2; lia).
    pose proof (Z.log2_nonneg n).
    cbn [length]. split; [|intros _]; lia.
Qed.

Lemma dumpInt_length_witness :
  (1 <= length (emitted (dumpInt recorder (2 ^ 64 - 1)%Z)) <= 128)%nat /\
  (0 < 2 ^ 64 - 1 ->
   (Z.to_nat (highest_set_bit (2 ^ 64 - 1)%Z) + 2
    <= length (emitted (dumpInt recorder (2 ^ 64 - 1)%Z))
    <= 2 * Z.to_nat (highest_set_bit (2 ^ 64 - 1)%Z) + 2)%nat).
Proof.
  apply (dumpInt_length (2 ^ 64 - 1)). split; [discriminate|reflexivity].
Defined.

(** ** [Dump] loses nothing but the payload of a NaN *)

(** X10.  [dumpInt] writes different ops for different unsigned 64-bit
    numbers. *)
Theorem dumpInt_injective (n m : Z) :
  0 <= n < 2 ^ 64 -> 0 <= m < 2 ^ 64 ->
  emitted (dumpInt recorder n) = emitted (dumpInt recorder m) -> n = m.
Proof.
  intros Hn Hm.
  rewrite (emits_emitted _ _ (dumpInt_emits recorder n Hn)).
  rewrite (emits_emitted _ _ (dumpInt_emits recorder m Hm)).
  intros Heq.
  pose proof (msb_first_ops_builds n [] Hn) as Bn.
  pose proof (msb_first_ops_builds m [] Hm) as Bm.
  rewrite Heq, Bm in Bn. inversion Bn as [H].
  rewrite <- (Z.mod_small n (2 ^ 64)), <- (Z.mod_small m (2 ^ 64)) by assumption.
  rewrite <- (int64_of_Z_mod n), <- (int64_of_Z_mod m), H. reflexivity.
Qed.

Lemma dumpInt_injective_witness :
  emitted (dumpInt recorder 6) = [Inew; Iinc; Ishl; Iinc; Ishl] /\ 6 = 6.
Proof.
  split; [reflexivity|].
  apply (dumpInt_injective 6 6);
    [split; [discriminate|reflexivity]|split; [discriminate|reflexivity]|].
  reflexivity.
Defined.

(** X11.  Two values of defined kinds that hold no -Inf and for which
    [Dump] writes the same ops are the same value, up to the payload bits of
    their NaNs. *)
Theorem Dump_injective (v1 v2 : Value) :
  defined_kinds v1 = true -> well_typed v1 = true -> no_neg_inf v1 = true ->
  defined_kinds v2 = true -> well_typed v2 = true -> no_neg_inf v2 = true ->
  emitted (Dump recorder v1) = emitted (Dump recorder v2) ->
  canonical_NaN v1 = canonical_NaN v2.
Proof.
  intros Hd1 Hw1 Hi1 Hd2 Hw2 Hi2 Heq.
  pose proof (Dump_builds v1 Hd1 Hw1 Hi1 []) as B1.
  pose proof (Dump_builds v2 Hd2 Hw2 Hi2 []) as B2.
  rewrite Heq, B2 in B1. inversion B1. reflexivity.
Qed.

Lemma Dump_injective_witness :
  canonical_NaN (NewArrayValue [NewFloatValue quiet_NaN])
  = canonical_NaN (NewArrayValue [NewFloatValue go_NaN]).
Proof.
  apply (Dump_injective (NewArrayValue [NewFloatValue quiet_NaN])
                        (NewArrayValue [NewFloatValue go_NaN]));
    vm_compute; reflexivity.
Defined.

(** * Further facts on the adapter *)

(** ** [FromValue] and the kinds *)

Lemma defined_kinds_object_cons (k : list byte) (v : Value)
  (rest : list (list byte * Value)) :
  defined_kinds (NewObjectValue ((k, v) :: rest))
  = defined_kinds v && defined_kinds (NewObjectValue rest).
Proof. reflexivity. Qed.

Lemma defined_kinds_array_cons (v : Value) (rest : list Value) :
  defined_kinds (NewArrayValue (v :: rest))
  = defined_kinds v && defined_kinds (NewArrayValue rest).
Proof. reflexivity. Qed.

Lemma FromValue_returns_iff_defined (v : Value) :
  returns_iff_defined (FromValue v) (defined_kinds v).
Proof.
  induction v as [i|u|x|s|obj IH|arr IH|b| |k] using Value_nested_ind;
    try reflexivity.
  - cbn [FromValue]. generalize (@nil (list byte * Native)) as acc.
    induction IH as [|[k v] rest Hv _ IHrest]; intros acc; [reflexivity|].
    rewrite defined_kinds_object_cons. cbn [FromValue_object snd] in *.
    destruct (FromValue v) as [x|p]; cbn [returns_iff_defined] in Hv.
    + rewrite Hv. cbn [andb]. apply IHrest.
    + destruct Hv as [-> Hk]. cbn [andb]. split; [reflexivity|exact Hk].
  - cbn [FromValue]. generalize (@nil Native) as acc.
    induction IH as [|v rest Hv _ IHrest]; intros acc; [reflexivity|].
    rewrite defined_kinds_array_cons. cbn [FromValue_array].
    destruct (FromValue v) as [x|p]; cbn [returns_iff_defined] in Hv.
    + rewrite Hv. cbn [andb]. apply IHrest.
    + destruct Hv as [-> Hk]. cbn [andb]. split; [reflexivity|exact Hk].
  - cbn. split; [reflexivity|]. exists k. reflexivity.
Qed.

(** X12.  [FromValue] returns a native value exactly when every kind in its
    argument, however deep, is one of the eight defined kinds; otherwise it
    panics, and the panic is the "invalid kind" of the first value of an
    unknown kind it meets. *)
Theorem FromValue_panics_on_unknown_kinds (v : Value) :
  ((exists n, FromValue v = Returns n) <-> defined_kinds v = true) /\
  (forall p, FromValue v = Panics p -> exists k, p = InvalidKind k) /\
  (forall k, FromValue (UnknownKindValue k) = Panics (InvalidKind k)).
Proof.
  pose proof (FromValue_returns_iff_defined v) as H.
  split; [split|split].
  - intros [n Hn]. rewrite Hn in H. exact H.
  - intros Hd. destruct (FromValue v) as [n|p]; [exists n; reflexivity|].
    destruct H as [H _]. congruence.
  - intros p Hp. rewrite Hp in H. apply H.
  - reflexivity.
Qed.

(** ** The type switch of [ToValue] and the reflective path *)

Lemma ToValue_reflect_path (d : Native) :
  d <> NBytes false None -> ToValue (Some d) = reflectValueToValue d.
Proof.
  intros Hne. by_native_cases d; try reflexivity. congruence.
Qed.

(** X13.  On every native value but the nil slice of the predeclared type
    [[]byte], the type switch of [ToValue] and [reflectValueToValue] give
    the same result. *)
Theorem ToValue_agrees_with_reflectValueToValue (d : Native) :
  d <> NBytes false None ->
  ToValue (Some d) = reflectValueToValue d.
Proof. apply ToValue_reflect_path. Qed.

Lemma ToValue_agrees_with_reflectValueToValue_witness :
  ToValue (Some (NInt TInt16 false 12)) = reflectValueToValue (NInt TInt16 false 12) /\
  ToValue (Some (NBytes false (Some [x61]))) = reflectValueToValue (NBytes false (Some [x61])).
Proof.
  split.
  - apply (ToValue_agrees_with_reflectValueToValue (NInt TInt16 false 12)).
    discriminate.
  - apply (ToValue_agrees_with_reflectValueToValue (NBytes false (Some [x61]))).
    discriminate.
Defined.

(** X14.  [ToValue] takes a signed integer of any width to [Int], an
    unsigned one to [Uint], a float of either width to [Float], a bool to
    [Bool], a string and a non-nil byte slice to [String], each with the
    same payload, whether the type is the predeclared one or a defined type
    over it; and the nil interface to [Nil]. *)
Theorem ToValue_scalars :
  (forall t named n, ToValue (Some (NInt t named n)) = Returns (NewIntValue n)) /\
  (forall t named n, ToValue (Some (NUint t named n)) = Returns (NewUintValue n)) /\
  (forall t named x, ToValue (Some (NFloat t named x)) = Returns (NewFloatValue x)) /\
  (forall named b, ToValue (Some (NBool named b)) = Returns (NewBoolValue b)) /\
  (forall named s, ToValue (Some (NString named s)) = Returns (NewStringValue s)) /\
  (forall named s, ToValue (Some (NBytes named (Some s))) = Returns (NewStringValue s)) /\
  ToValue None = Returns NewNilValue.
Proof.
  repeat split.
  - intros [] [] n; reflexivity.
  - intros [] [] n; reflexivity.
  - intros [] [] x; reflexivity.
  - intros [] b; reflexivity.
  - intros [] s; reflexivity.
  - intros [] s; reflexivity.
Qed.

(** ** String-keyed maps *)

Lemma reflectMapToValue_range_converts (convert : Native -> outcome Value)
  (m : list (list byte * Native)) (obj : list (list byte * Value)) :
  Forall2 (fun kv ko => fst ko = fst kv /\ convert (snd kv) = Returns (snd ko)) m obj ->
  forall acc,
    NoDup (map fst acc ++ map fst m) ->
    reflectMapToValue_range convert m acc = Returns (NewObjectValue (acc ++ obj)).
Proof.
  induction 1 as [|[k x] [k' y] m obj [Hk Hx] _ IH]; intros acc Hnd.
  - cbn. now rewrite app_nil_r.
  - cbn [fst snd] in *. subst k'. cbn [reflectMapToValue_range]. rewrite Hx.
    cbn [map fst] in Hnd.
    rewrite obj_set_fresh.
    + rewrite IH.
      * rewrite <- app_assoc. reflexivity.
      * rewrite map_app, <- app_assoc. exact Hnd.
    + apply NoDup_remove_2 in Hnd. intros Hin. apply Hnd.
      apply in_or_app. left. exact Hin.
Qed.

Lemma reflectMapToValue_range_panics (convert : Native -> outcome Value)
  (pre post : list (list byte * Native)) (k : list byte) (x : Native)
  (p : panic_value) :
  Forall (fun kv => exists y, convert (snd kv) = Returns y) pre ->
  convert x = Panics p ->
  forall acc, reflectMapToValue_range convert (pre ++ (k, x) :: post) acc = Panics p.
Proof.
  intros Hpre Hx. induction Hpre as [|[k' x'] pre [y Hy] _ IH]; intros acc.
  - cbn [app reflectMapToValue_range]. rewrite Hx. reflexivity.
  - cbn [app reflectMapToValue_range snd] in *. rewrite Hy. apply IH.
Qed.

Lemma ToValue_string_map_unfold (m : list (list byte * Native)) :
  ToValue (Some (NStringMap (Some m)))
  = reflectMapToValue_range reflectValueToValue m [].
Proof. reflexivity. Qed.

(** X15.  A non-nil string-keyed map all of whose elements convert becomes
    the object with the same keys, each bound to the conversion of its
    element. *)
Theorem ToValue_string_keyed_map (m : list (list byte * Native))
  (obj : list (list byte * Value)) :
  NoDup (map fst m) ->
  Forall2 (fun kv ko => fst ko = fst kv /\
                        reflectValueToValue (snd kv) = Returns (snd ko)) m obj ->
  ToValue (Some (NStringMap (Some m))) = Returns (NewObjectValue obj).
Proof.
  intros Hnd Hall. rewrite ToValue_string_map_unfold.
  apply (reflectMapToValue_range_converts reflectValueToValue m obj Hall []).
  exact Hnd.
Qed.

Lemma ToValue_string_keyed_map_witness :
  ToValue (Some (NStringMap (Some [([x61], NInt TInt false 1);
                                   ([x62], NStringMap (Some [([], NBool true true)]))])))
  = Returns (NewObjectValue [([x61], NewIntValue 1);
                             ([x62], NewObjectValue [([], NewBoolValue true)])]).
Proof.
  apply ToValue_string_keyed_map.
  - repeat constructor; cbn; intuition discriminate.
  - repeat constructor.
Defined.

(** X16.  A string-keyed map one of whose elements does not convert, those
    ranged over before it converting, does not convert either: [ToValue]
    panics with the panic of that element. *)
Theorem ToValue_string_keyed_map_panics
  (pre post : list (list byte * Native)) (k : list byte) (x : Native)
  (p : panic_value) :
  Forall (fun kv => exists y, reflectValueToValue (snd kv) = Returns y) pre ->
  reflectValueToValue x = Panics p ->
  ToValue (Some (NStringMap (Some (pre ++ (k, x) :: post)))) = Panics p.
Proof.
  intros Hpre Hx. rewrite ToValue_string_map_unfold.
  apply reflectMapToValue_range_panics; assumption.
Qed.

Lemma ToValue_string_keyed_map_panics_witness :
  ToValue (Some (NStringMap (Some ([([x61], NInt TInt false 1)]
                                   ++ ([x62], NStruct) :: [([x63], NPointer false)]))))
  = Panics (IsNilValueError reflect.Struct).
Proof.
  apply ToValue_string_keyed_map_panics.
  - repeat constructor. eexists. reflexivity.
  - reflexivity.
Defined.

(** ** What [ToValue] can return *)

Lemma Native_string_map_ind (P : Native -> Prop) :
  (forall m, Forall (fun kv => P (snd kv)) m -> P (NStringMap (Some m))) ->
  (forall d, (forall m, d <> NStringMap (Some m)) -> P d) ->
  forall d, P d.
Proof.
  intros Hm Ho. fix IH 1. intros d.
  destruct d as [n b|t n z|t n z|z|t n x|w|n s|n s|s|m|i|i|i|i|i| | |dyn];
    try (apply Ho; intros m' Hm'; discriminate Hm').
  destruct m as [m|]; [|apply Ho; intros m' Hm'; discriminate Hm'].
  apply Hm. induction m as [|[k x] m IHm]; constructor.
  - apply IH.
  - exact IHm.
Qed.

Lemma defined_array_free_object (o : list (list byte * Value)) :
  Forall (fun kv => defined_kinds (snd kv) = true /\ array_free (snd kv) = true) o ->
  defined_kinds (NewObjectValue o) = true /\ array_free (NewObjectValue o) = true.
Proof.
  induction 1 as [|[k v] o [Hd Ha] _ [IHd IHa]]; [split; reflexivity|].
  cbn [snd] in *. split.
  - rewrite defined_kinds_object_cons, Hd, IHd. reflexivity.
  - change (array_free v && array_free (NewObjectValue o) = true).
    rewrite Ha, IHa. reflexivity.
Qed.

Lemma obj_set_Forall (P : Value -> Prop) (k : list byte) (x : Value)
  (o : list (list byte * Value)) :
  P x -> Forall (fun kv => P (snd kv)) o ->
  Forall (fun kv => P (snd kv)) (obj_set k x o).
Proof.
  intros Hx. induction 1 as [|[k' x'] o Hx' Ho IH]; cbn [obj_set].
  - constructor; [exact Hx|constructor].
  - destruct (bytes_eqb k k'); constructor; assumption.
Qed.

Lemma reflectMapToValue_range_Forall (P : Value -> Prop)
  (convert : Native -> outcome Value) (m : list (list byte * Native)) :
  Forall (fun kv => forall y, convert (snd kv) = Returns y -> P y) m ->
  forall acc v,
    Forall (fun kv => P (snd kv)) acc ->
    reflectMapToValue_range convert m acc = Returns v ->
    exists o, v = NewObjectValue o /\ Forall (fun kv => P (snd kv)) o.
Proof.
  induction 1 as [|[k x] m Hx _ IH]; intros acc v Hacc Hrun.
  - cbn in Hrun. inversion Hrun. exists acc. split; [reflexivity|exact Hacc].
  - cbn [reflectMapToValue_range snd] in *.
    destruct (convert x) as [y|p]; [|discriminate].
    apply (IH (obj_set k y acc) v); [|exact Hrun].
    apply obj_set_Forall; [apply Hx; reflexivity|exact Hacc].
Qed.

Lemma reflectValueToValue_defined_array_free (d : Native) (v : Value) :
  reflectValueToValue d = Returns v ->
  defined_kinds v = true /\ array_free v = true.
Proof.
  revert v. induction d as [m IH|d Hd] using Native_string_map_ind; intros v H.
  - change (reflectMapToValue_range reflectValueToValue m [] = Returns v) in H.
    destruct (reflectMapToValue_range_Forall
                (fun y => defined_kinds y = true /\ array_free y = true)
                reflectValueToValue m IH [] v (Forall_nil _) H) as (o & -> & Ho).
    apply defined_array_free_object, Ho.
  - by_native_cases d; cbn in H; try discriminate H;
      try (inversion H; split; reflexivity).
    exfalso. apply (Hd l). reflexivity.
Qed.

(** A native value is the nil slice of the predeclared type [[]byte], or it
    is not. *)
Lemma Native_eq_nil_bytes (d : Native) :
  d = NBytes false None \/ d <> NBytes false None.
Proof.
  destruct d as [n b|t n z|t n z|z|t n x|w|n s|n s|s|m|i|i|i|i|i| | |dyn];
    try (right; discriminate).
  destruct n; [right; discriminate|].
  destruct s; [right; discriminate|left; reflexivity].
Qed.

(** X17.  Whatever [ToValue] returns is a value of defined kinds that holds
    no array, at any depth: the adapter builds [Nil], [Bool], [Int],
    [Uint], [Float], [String] and [Object] values only. *)
Theorem ToValue_returns_no_array (n : option Native) (v : Value) :
  ToValue n = Returns v ->
  defined_kinds v = true /\ array_free v = true.
Proof.
  intros H. destruct n as [d|]; [|inversion H; split; reflexivity].
  destruct (Native_eq_nil_bytes d) as [->|Hne].
  - inversion H. split; reflexivity.
  - rewrite (ToValue_reflect_path d Hne) in H.
    apply (reflectValueToValue_defined_array_free d v H).
Qed.

Lemma ToValue_returns_no_array_witness :
  defined_kinds (NewObjectValue [([x61], NewStringValue [x62])]) = true /\
  array_free (NewObjectValue [([x61], NewStringValue [x62])]) = true.
Proof.
  apply (ToValue_returns_no_array
           (Some (NStringMap (Some [([x61], NBytes true (Some [x62]))])))).
  reflexivity.
Defined.

(** ** Objects, there and back *)

Lemma FromValue_returns_nil (v : Value) :
  FromValue v = Returns None -> v = NewNilValue.
Proof.
  destruct v as [i|u|x|s|obj|arr|b| |k]; cbn [FromValue]; intros H;
    try discriminate H; [| |reflexivity].
  - apply FromValue_object_shape in H. destruct H as (ms & H & _). discriminate H.
  - apply FromValue_array_shape in H. destruct H as (ns & H & _). discriminate H.
Qed.

(** X18.  An object all of whose values are [Nil] (the empty object among
    them) comes back from its native form as it was. *)
Theorem back_and_forth_object_of_nils (obj : list (list byte * Value)) :
  NoDup (map fst obj) ->
  Forall (fun kv => snd kv = NewNilValue) obj ->
  back_and_forth (NewObjectValue obj) = Returns (NewObjectValue obj).
Proof.
  intros Hnd Hnil. unfold back_and_forth.
  assert (Hdef : defined_kinds (NewObjectValue obj) = true).
  { clear Hnd. induction Hnil as [|[k v] rest Hv _ IH]; [reflexivity|].
    cbn [snd] in Hv. subst v. rewrite defined_kinds_object_cons, IH. reflexivity. }
  destruct (FromValue_defined _ Hdef) as [n Hn]. rewrite Hn.
  cbn [FromValue] in Hn. apply FromValue_object_shape in Hn.
  destruct Hn as (ms & -> & Hms). cbn [app].
  rewrite ToValue_string_map_unfold.
  apply (reflectMapToValue_range_converts reflectValueToValue ms obj); [|].
  - clear Hnd Hdef. revert Hnil.
    induction Hms as [|[k v] km rest ms (x & Hx & ->) _ IH]; intros Hnil;
      [constructor|].
    inversion Hnil as [|? ? Hv Hrest]. subst. cbn [snd fst] in *. subst v.
    cbn in Hx. inversion Hx. subst x.
    constructor; [split; reflexivity|apply IH, Hrest].
  - cbn [map app]. replace (map fst ms) with (map fst obj); [exact Hnd|].
    clear Hnd Hdef Hnil.
    induction Hms as [|[k v] km rest ms (x & Hx & ->) _ IH]; [reflexivity|].
    cbn [map fst]. rewrite IH. reflexivity.
Qed.

Lemma back_and_forth_object_of_nils_witness :
  back_and_forth (NewObjectValue [([x61], NewNilValue); ([x62], NewNilValue)])
  = Returns (NewObjectValue [([x61], NewNilValue); ([x62], NewNilValue)]).
Proof.
  apply back_and_forth_object_of_nils.
  - repeat constructor; cbn; intuition discriminate.
  - repeat constructor.
Defined.

(** X19.  An object of values of defined kinds that holds a value other
    than [Nil] does not come back from its native form: its map has the
    element type [interface{}], [reflectValueToValue] does not look into an
    interface, and [ToValue] panics with "can't convert" on the first such
    entry of the [range]. *)
Theorem back_and_forth_object_panics
  (pre post : list (list byte * Value)) (k : list byte) (v : Value) :
  defined_kinds (NewObjectValue (pre ++ (k, v) :: post)) = true ->
  Forall (fun kv => snd kv = NewNilValue) pre ->
  v <> NewNilValue ->
  exists d, FromValue v = Returns (Some d) /\
            back_and_forth (NewObjectValue (pre ++ (k, v) :: post))
            = Panics (CantConvert (NInterface (Some d))).
Proof.
  intros Hdef Hnil Hv. unfold back_and_forth.
  destruct (FromValue_defined _ Hdef) as [n Hn]. rewrite Hn.
  cbn [FromValue] in Hn. apply FromValue_object_shape in Hn.
  destruct Hn as (ms & -> & Hms). cbn [app].
  apply Forall2_app_inv_l in Hms.
  destruct Hms as (mpre & mrest & Hpre & Hrest & ->).
  inversion Hrest as [|? km ? mpost (x & Hx & Hkm) Hpost]. subst.
  cbn [fst snd] in *.
  destruct x as [d|]; [|apply FromValue_returns_nil in Hx; contradiction].
  exists d. split; [exact Hx|].
  rewrite ToValue_string_map_unfold.
  apply reflectMapToValue_range_panics; [|reflexivity].
  clear Hdef Hrest Hpost. revert Hnil.
  induction Hpre as [|[k' v'] km' rest ms (x' & Hx' & ->) _ IH]; intros Hnil;
    [constructor|].
  inversion Hnil as [|? ? Hv' Hrest']. subst. cbn [snd fst] in *. subst v'.
  cbn in Hx'. inversion Hx'. subst x'.
  constructor; [exists NewNilValue; reflexivity|apply IH, Hrest'].
Qed.

Lemma back_and_forth_object_panics_witness :
  exists d, FromValue (NewBoolValue true) = Returns (Some d) /\
            back_and_forth (NewObjectValue ([([x61], NewNilValue)]
                                            ++ ([x62], NewBoolValue true) :: []))
            = Panics (CantConvert (NInterface (Some d))).
Proof.
  apply back_and_forth_object_panics.
  - reflexivity.
  - repeat constructor.
  - discriminate.
Defined.

(** ** Nil references *)

(** X20.  [reflectValueToValue] returns [Nil] for every nil reference (a
    nil slice, of bytes or not, a nil map, string-keyed or not, a nil
    pointer, chan, func, unsafe pointer or interface), and so does
    [ToValue], but for the nil slice of the predeclared type [[]byte]. *)
Theorem nil_references_become_Nil (v : Native) :
  is_nil_reference v = true ->
  reflectValueToValue v = Returns NewNilValue /\
  (v <> NBytes false None -> ToValue (Some v) = Returns NewNilValue).
Proof.
  intros H. split.
  - by_native_cases v; try discriminate H; reflexivity.
  - intros Hne. rewrite (ToValue_reflect_path v Hne).
    by_native_cases v; try discriminate H; reflexivity.
Qed.

Lemma nil_references_become_Nil_witness :
  reflectValueToValue (NSlice None) = Returns NewNilValue /\
  (NSlice None <> NBytes false None -> ToValue (Some (NSlice None)) = Returns NewNilValue).
Proof. apply (nil_references_become_Nil (NSlice None)). reflexivity. Defined.

(** * Further facts on what [Dump] writes *)

(** ** NaNs *)

Lemma canonical_NaN_defined (v : Value) :
  defined_kinds v = true -> defined_kinds (canonical_NaN v) = true.
Proof.
  induction v as [i|u|x|s|obj IH|arr IH|b| |k] using Value_nested_ind;
    intros Hd; try exact Hd; try reflexivity.
  - pose proof (defined_kinds_object obj Hd) as Hall. clear Hd.
    cbn [canonical_NaN].
    induction IH as [|[k v] rest Hv _ IHrest]; [reflexivity|].
    inversion Hall; subst. cbn [map fst snd] in *.
    rewrite defined_kinds_object_cons, Hv, IHrest by assumption. reflexivity.
  - pose proof (defined_kinds_array arr Hd) as Hall. clear Hd.
    cbn [canonical_NaN].
    induction IH as [|v rest Hv _ IHrest]; [reflexivity|].
    inversion Hall; subst. cbn [map].
    rewrite defined_kinds_array_cons, Hv, IHrest by assumption. reflexivity.
Qed.

Lemma Forall_defined_canonical_entries (obj : list (list byte * Value)) :
  Forall (fun kv => defined_kinds (snd kv) = true) obj ->
  Forall (fun kv => defined_kinds (snd kv) = true)
         (map (fun kv => (fst kv, canonical_NaN (snd kv))) obj).
Proof.
  induction 1 as [|[k v] rest Hv _ IH]; constructor.
  - apply canonical_NaN_defined, Hv.
  - exact IH.
Qed.

Lemma Forall_defined_canonical_elements (arr : list Value) :
  Forall (fun v => defined_kinds v = true) arr ->
  Forall (fun v => defined_kinds v = true) (map canonical_NaN arr).
Proof.
  induction 1 as [|v rest Hv _ IH]; constructor.
  - apply canonical_NaN_defined, Hv.
  - exact IH.
Qed.

(** X21.  [Dump] writes the same ops for a value and for that value with
    the payload bits of its NaNs changed to those of [math.NaN()]: it tells
    no NaN from another. *)
Theorem Dump_ignores_NaN_payload (v : Value) :
  defined_kinds v = true -> well_typed v = true ->
  emitted (Dump recorder (canonical_NaN v)) = emitted (Dump recorder v).
Proof.
  induction v as [i|u|x|s|obj IH|arr IH|b| |k] using Value_nested_ind;
    intros Hdef Hwt; try reflexivity.
  - cbn [canonical_NaN well_typed] in *. apply is_uint64_iff in Hwt.
    destruct (IsNaN x) eqn:Hnan; [|reflexivity].
    cbn [Dump].
    rewrite (emits_emitted _ _ (dumpFloat_emits recorder x Hwt)), Hnan.
    reflexivity.
  - pose proof (defined_kinds_object obj Hdef) as Hd.
    destruct (well_typed_object obj Hwt) as [_ Hw].
    cbn [canonical_NaN].
    rewrite (emitted_Dump_object _ (Forall_defined_canonical_entries obj Hd)).
    rewrite (emitted_Dump_object obj Hd). f_equal. clear Hdef Hwt.
    induction IH as [|[k v] rest Hv _ IHrest]; [reflexivity|].
    inversion Hd; inversion Hw; subst. cbn [map flat_map fst snd] in *.
    rewrite Hv, IHrest by assumption. reflexivity.
  - pose proof (defined_kinds_array arr Hdef) as Hd.
    pose proof (well_typed_array arr Hwt) as Hw.
    cbn [canonical_NaN].
    rewrite (emitted_Dump_array _ (Forall_defined_canonical_elements arr Hd)).
    rewrite (emitted_Dump_array arr Hd). f_equal. clear Hdef Hwt.
    induction IH as [|v rest Hv _ IHrest]; [reflexivity|].
    inversion Hd; inversion Hw; subst. cbn [map flat_map].
    rewrite Hv, IHrest by assumption. reflexivity.
Qed.

Lemma Dump_ignores_NaN_payload_witness :
  emitted (Dump recorder (canonical_NaN sample_value))
  = emitted (Dump recorder sample_value).
Proof. apply (Dump_ignores_NaN_payload sample_value); vm_compute; reflexivity. Defined.

(** ** Negative integers *)

(** X22.  [Dump] writes a negative [Int] from its two's-complement
    pattern, whose bit 63 is set: the output holds exactly 63 [Ishl] and at
    least 65 ops. *)
Theorem Dump_negative_int (i : Z) :
  - 2 ^ 63 <= i < 0 ->
  emitted (Dump recorder (NewIntValue i)) = emitted (dumpInt recorder (i + 2 ^ 64)) /\
  count_occ Op_eq_dec (emitted (Dump recorder (NewIntValue i))) Ishl = 63%nat /\
  (65 <= length (emitted (Dump recorder (NewIntValue i))))%nat.
Proof.
  intros Hi.
  assert (Hu : uint64_of_int64 i = i + 2 ^ 64).
  { unfold uint64_of_int64. symmetry.
    apply Z.mod_unique_pos with (q := -1); lia. }
  assert (Hr : 0 <= i + 2 ^ 64 < 2 ^ 64) by lia.
  assert (Hl : Z.log2 (i + 2 ^ 64) = 63) by (apply Z.log2_unique; lia).
  cbn [Dump]. rewrite Hu. split; [reflexivity|].
  rewrite (emits_emitted _ _ (dumpInt_emits recorder _ Hr)).
  unfold msb_first_ops, highest_set_bit. rewrite Hl.
  destruct (Z.eqb_spec (i + 2 ^ 64) 0); [lia|].
  change (Z.to_nat 63) with 63%nat. split.
  - cbn [count_occ].
    destruct (Op_eq_dec Inew Ishl); [discriminate|].
    destruct (Op_eq_dec Iinc Ishl); [discriminate|].
    apply count_Ishl_shift_and_set.
  - pose proof (length_shift_and_set (i + 2 ^ 64) 63). cbn [length]. lia.
Qed.

Lemma Dump_negative_int_witness :
  emitted (Dump recorder (NewIntValue (-1)))
  = emitted (dumpInt recorder (-1 + 2 ^ 64)) /\
  count_occ Op_eq_dec (emitted (Dump recorder (NewIntValue (-1)))) Ishl = 63%nat /\
  (65 <= length (emitted (Dump recorder (NewIntValue (-1)%Z))))%nat.
Proof. apply (Dump_negative_int (-1)). split; [discriminate|reflexivity]. Defined.
